(** * The platform.sh recipe plugin of Lando

    A shallow embedding of
    [src/experimental/plugins/lando-platformsh/app.js]: the function the
    module exports, the event handlers it registers, and the two-phase OPEN
    protocol the [post-start] handler of priority 8 drives.

    JavaScript objects the handlers share and mutate ([app], the cache of
    [lando], the file system) live in one [World], threaded through a state
    and exception monad.  Everything a handler does that another party can
    observe (log lines, cache writes, file writes, engine calls, handler
    registrations) is appended to the world's trace, in program order. *)

From stdpp Require Import base strings list gmap sorting.
From Stdlib Require Import ZArith.

Set Warnings "-register-all".
Open Scope string_scope.
Open Scope list_scope.

(** ** JavaScript values *)

(** Primitive values, the only ones the object literals of [app.js] hold. *)
Inductive prim :=
| PUndefined
| PNull
| PNum (n : Z)
| PStr (s : string).

Inductive jsval :=
| JUndefined
| JNull
| JBool (b : bool)
| JNum (n : Z)
| JStr (s : string)
| JArr (l : list jsval)
| JObj (o : list (string * jsval)).

(** An object is the list of its own properties, in insertion order. *)
Abbreviation obj := (list (string * jsval)).

Definition of_prim (p : prim) : jsval :=
  match p with
  | PUndefined => JUndefined
  | PNull => JNull
  | PNum n => JNum n
  | PStr s => JStr s
  end.

Definition opt_prim (s : option string) : prim :=
  match s with Some s => PStr s | None => PUndefined end.

(** [!!v] of JavaScript. *)
Definition truthy (v : jsval) : bool :=
  match v with
  | JUndefined | JNull => false
  | JBool b => b
  | JNum n => negb (n =? 0)%Z
  | JStr s => negb (String.eqb s "")
  | JArr _ | JObj _ => true
  end.

(** [o[k]] on own properties. *)
Fixpoint obj_get (k : string) (o : obj) : option jsval :=
  match o with
  | [] => None
  | (k', v) :: o' => if decide (k = k') then Some v else obj_get k o'
  end.

(** [o[k] = v]: an existing property keeps its place, a new one goes last. *)
Fixpoint obj_set (k : string) (v : jsval) (o : obj) : obj :=
  match o with
  | [] => [(k, v)]
  | (k', v') :: o' =>
      if decide (k = k') then (k, v) :: o' else (k', v') :: obj_set k v o'
  end.

(** [Array.prototype.join]: [undefined] and [null] elements print as the
    empty string. *)
Fixpoint join (sep : string) (l : list (option string)) : string :=
  match l with
  | [] => ""
  | [x] => default "" x
  | x :: l' => default "" x +:+ sep +:+ join sep l'
  end.

(** ** lodash *)

Module lodash.

(** [_.isEmpty]: arrays, strings and objects are empty when they have no
    element; every other value is. *)
Definition isEmpty (v : jsval) : bool :=
  match v with
  | JArr l => bool_decide (l = [])
  | JObj o => bool_decide (o = [])
  | JStr s => String.eqb s ""
  | JUndefined | JNull | JBool _ | JNum _ => true
  end.

(** [assignMergeValue] of [_.merge] for a primitive source value: an
    [undefined] source value is skipped when the key is there already. *)
Definition assignMergeValue (o : obj) (k : string) (v : prim) : obj :=
  match v with
  | PUndefined =>
      match obj_get k o with Some _ => o | None => obj_set k JUndefined o end
  | _ => obj_set k (of_prim v) o
  end.

(** [_.merge(object, source)] for a source whose values are primitive,
    which is all [app.js] merges: every key of the source, in order. *)
Definition merge (o : obj) (source : list (string * prim)) : obj :=
  foldl (λ acc kv, assignMergeValue acc kv.1 kv.2) o source.

(** [_.fromPairs]: [result[pair[0]] = pair[1]] for every element.  An
    element that is [undefined] has no [0]: reading it raises a
    [TypeError], here [None]. *)
Fixpoint fromPairs {V} (pairs : list (option (string * V)))
    (result : gmap string V) : option (gmap string V) :=
  match pairs with
  | [] => Some result
  | None :: _ => None
  | Some (k, v) :: pairs' => fromPairs pairs' (<[k := v]> result)
  end.

(** [_.find(collection, {key: value})] through a boolean matcher. *)
Fixpoint find {A} (p : A → bool) (l : list A) : option A :=
  match l with
  | [] => None
  | x :: l' => if p x then Some x else find p l'
  end.

(** [_.difference(array, values)]. *)
Definition difference (l values : list string) : list string :=
  filter (λ x, x ∉ values) l.

End lodash.

(** ** The data of the plugin *)

(** An element of [app.config.services].  [svc_application] tells an
    application server from a backing service: it stands for whatever
    [utils.getApplicationServices] tests, which is not in [app.js]. *)
Record Service := {
  svc_name : string;                          (* service.name *)
  svc_version : option string;                (* service.version *)
  svc_application : bool;
  svc_hostname : option string;               (* service.platformsh.hostname *)
  svc_type : option string;                   (* service.platformsh.type *)
  svc_opener : string;                        (* service.platformsh.opener *)
  svc_relationships : list (string * string); (* service.platformsh.relationships *)
  svc_openMerge : option (list (string * prim)) (* service.platformsh.openMerge *)
}.

(** A parsed application of [app.platformsh.applications]. *)
Record Application := {
  a_name : string;
  a_configFile : string
}.

(** What [pshconf.loadConfigFiles] returns. *)
Record RawConfig := {
  c_applications : jsval;
  c_applicationFiles : jsval;
  c_routes : jsval;
  c_services : jsval
}.

(** An element of [app.platformsh.services]. *)
Record PshService := {
  ps_name : string;
  ps_config : jsval
}.

(** An element of [app.platformsh.runConfig]. *)
Record RunConfig := {
  rc_service : string;
  rc_file : string;
  rc_data : jsval
}.

(** A cached machine token: [{token, email, date}]. *)
Record Token := {
  token : string;
  email : string;
  date : Z
}.

(** The payload of an application server: relationship name to endpoints. *)
Abbreviation OpenPayload := (list (string * list obj)).

(** What the cache of [lando] holds under the keys this file uses. *)
Inductive CacheVal :=
| CTokens (ts : list Token)
| CMeta (o : obj)
| COpen (p : OpenPayload)
| CJson (v : jsval).

Definition cache_truthy (v : option CacheVal) : bool :=
  match v with
  | None => false
  | Some (CJson v) => truthy v
  | Some _ => true
  end.

(** [app.platformsh]; a field that is not set yet is [None]. *)
Record Platformsh := {
  p_config : RawConfig;
  p_domain : string;
  p_id : string;
  p_tokenCache : string;
  p_tokens : list Token;
  p_routes : option jsval;
  p_applications : option (list Application);
  p_closestApp : option Application;
  p_closestOpenCache : option CacheVal;
  p_relationships : option jsval;
  p_services : option (list PshService);
  p_runConfig : option (list RunConfig)
}.

(** The handlers [app.js] registers.  A handler that closes over the
    [services] and [appservers] arrays carries them: the arrays hold
    references to the objects of [app.config.services], here positions. *)
Inductive Handler :=
| HPreInit
| HUnsupported
| HPostCommand
| HPostInitRunConfig
| HPreStartRunConfig
| HPostInitScan
| HPostStartScan (services : list nat)
| HPostInitOpen
| HPostStartOpen (services appservers : list nat).

Record App := {
  app_id : string;
  app_name : string;
  app_root : string;
  app_project : string;
  app_compose : list string;
  app_recipe : option string;          (* app.config.recipe *)
  app_config_id : option string;       (* app.config.config.id *)
  app_services : list Service;         (* app.config.services *)
  app_userConfRoot : string;           (* app._config.userConfRoot *)
  app_domain : string;                 (* app._config.domain *)
  app_preLockfile : string;
  app_configPath : option string;
  app_platformsh : option Platformsh;
  app_events : list (string * option nat * Handler);
  app_warnings : list jsval
}.

(** ** Engine calls *)

Inductive Arg :=
| ArgStr (s : string)
| ArgRelationships (p : OpenPayload).  (* JSON.stringify({relationships: p}) *)

Record RunOpts := {
  o_mode : option string;
  o_hijack : option bool;
  o_services : list string;
  o_user : string;
  o_noTTY : option bool;
  o_cstdio : list string;
  o_silent : bool
}.

Record RunSpec := {
  r_id : string;
  r_cmd : list Arg;
  r_compose : list string;
  r_project : string;
  r_opts : RunOpts
}.

(** ** The world and its trace *)

Inductive Logger := AppLog | LandoLog.
Inductive Level := LError | LVerbose | LDebug | LSilly.

Inductive Effect :=
| ELog (lg : Logger) (lv : Level) (msg : string) (args : list string)
| ESanitize (key : string)
| EMkdirp (path : string)
| EWriteFile (path content : string)
| ECacheSet (key : string) (v : CacheVal) (persist : bool)
| EOn (event : string) (priority : option nat) (h : Handler)
| EWarning (w : jsval)
| EEngineScan (id : string)
| EEngineRun (r : RunSpec)
| EEngineDone (r : RunSpec) (stdout : option string).

Record World := {
  w_app : App;
  w_cache : gmap string CacheVal;    (* lando.cache *)
  w_dirs : gset string;              (* directories that exist *)
  w_files : gmap string string;      (* files written, with their content *)
  w_now : Z;                         (* _.now(), milliseconds *)
  w_trace : list Effect
}.

Inductive exn :=
| TypeError (msg : string)
| ConfigError (msg : string)
| Rejection (what : string).

Inductive Result (A : Type) :=
| Ok (a : A)
| Throw (e : exn).
Arguments Ok {A} a.
Arguments Throw {A} e.

(** State and exceptions: a handler that throws keeps the mutations it made
    before. *)
Definition M (A : Type) : Type := World → World * Result A.

Definition ret {A} (a : A) : M A := λ w, (w, Ok a).
Definition throw {A} (e : exn) : M A := λ w, (w, Throw e).
Definition bind {A B} (m : M A) (k : A → M B) : M B :=
  λ w, match m w with
       | (w', Ok a) => k a w'
       | (w', Throw e) => (w', Throw e)
       end.

Notation "'let*' x ':=' m 'in' k" := (bind m (λ x, k))
  (at level 10, x name, m at level 100, k at level 200).
Notation "m '>>' k" := (bind m (λ _, k))
  (at level 100, k at level 200, right associativity).

Definition gets {A} (f : World → A) : M A := λ w, (w, Ok (f w)).
Definition modify (f : World → World) : M unit := λ w, (f w, Ok tt).

Fixpoint forEach {A} (l : list A) (f : A → M unit) : M unit :=
  match l with
  | [] => ret tt
  | x :: l' => f x >> forEach l' f
  end.

(** ** Primitive effects *)

Definition with_trace (t : list Effect) (w : World) : World :=
  {| w_app := w_app w; w_cache := w_cache w; w_dirs := w_dirs w;
     w_files := w_files w; w_now := w_now w; w_trace := t |}.

Definition with_app (a : App) (w : World) : World :=
  {| w_app := a; w_cache := w_cache w; w_dirs := w_dirs w;
     w_files := w_files w; w_now := w_now w; w_trace := w_trace w |}.

Definition with_cache (c : gmap string CacheVal) (w : World) : World :=
  {| w_app := w_app w; w_cache := c; w_dirs := w_dirs w;
     w_files := w_files w; w_now := w_now w; w_trace := w_trace w |}.

Definition with_dirs (d : gset string) (w : World) : World :=
  {| w_app := w_app w; w_cache := w_cache w; w_dirs := d;
     w_files := w_files w; w_now := w_now w; w_trace := w_trace w |}.

Definition with_files (f : gmap string string) (w : World) : World :=
  {| w_app := w_app w; w_cache := w_cache w; w_dirs := w_dirs w;
     w_files := f; w_now := w_now w; w_trace := w_trace w |}.

Definition emit (e : Effect) : M unit :=
  modify (λ w, with_trace (w_trace w ++ [e]) w).

Definition log (lg : Logger) (lv : Level) (msg : string) (args : list string)
  : M unit := emit (ELog lg lv msg args).

(** [lando.cache.get(key)]: [None] is [undefined]. *)
Definition cache_get (key : string) : M (option CacheVal) :=
  gets (λ w, w_cache w !! key).

(** [lando.cache.set(key, value, {persist})]. *)
Definition cache_set (key : string) (v : CacheVal) (persist : bool) : M unit :=
  modify (λ w, with_cache (<[key := v]> (w_cache w)) w) >>
  emit (ECacheSet key v persist).

(** [fs.writeFileSync(file, content)]. *)
Definition writeFileSync (file content : string) : M unit :=
  modify (λ w, with_files (<[file := content]> (w_files w)) w) >>
  emit (EWriteFile file content).

(** [mkdirp.sync(path)]. *)
Definition mkdirp (path : string) : M unit :=
  modify (λ w, with_dirs ({[path]} ∪ w_dirs w) w) >> emit (EMkdirp path).

Definition update_app (f : App → App) : M unit :=
  modify (λ w, with_app (f (w_app w)) w).

(** [app.events.on(event, priority, handler)]; [None] when the call gives no
    priority. *)
Definition on (event : string) (priority : option nat) (h : Handler) : M unit :=
  update_app (λ a,
    {| app_id := app_id a; app_name := app_name a; app_root := app_root a;
       app_project := app_project a; app_compose := app_compose a;
       app_recipe := app_recipe a; app_config_id := app_config_id a;
       app_services := app_services a;
       app_userConfRoot := app_userConfRoot a; app_domain := app_domain a;
       app_preLockfile := app_preLockfile a;
       app_configPath := app_configPath a;
       app_platformsh := app_platformsh a;
       app_events := app_events a ++ [(event, priority, h)];
       app_warnings := app_warnings a |}) >>
  emit (EOn event priority h).

Definition set_id (id : string) (a : App) : App :=
  {| app_id := id; app_name := app_name a; app_root := app_root a;
     app_project := app_project a; app_compose := app_compose a;
     app_recipe := app_recipe a; app_config_id := app_config_id a;
     app_services := app_services a;
     app_userConfRoot := app_userConfRoot a; app_domain := app_domain a;
     app_preLockfile := app_preLockfile a;
     app_configPath := app_configPath a;
     app_platformsh := app_platformsh a;
     app_events := app_events a; app_warnings := app_warnings a |}.

Definition set_configPath (p : string) (a : App) : App :=
  {| app_id := app_id a; app_name := app_name a; app_root := app_root a;
     app_project := app_project a; app_compose := app_compose a;
     app_recipe := app_recipe a; app_config_id := app_config_id a;
     app_services := app_services a;
     app_userConfRoot := app_userConfRoot a; app_domain := app_domain a;
     app_preLockfile := app_preLockfile a;
     app_configPath := Some p;
     app_platformsh := app_platformsh a;
     app_events := app_events a; app_warnings := app_warnings a |}.

Definition set_platformsh (p : Platformsh) (a : App) : App :=
  {| app_id := app_id a; app_name := app_name a; app_root := app_root a;
     app_project := app_project a; app_compose := app_compose a;
     app_recipe := app_recipe a; app_config_id := app_config_id a;
     app_services := app_services a;
     app_userConfRoot := app_userConfRoot a; app_domain := app_domain a;
     app_preLockfile := app_preLockfile a;
     app_configPath := app_configPath a;
     app_platformsh := Some p;
     app_events := app_events a; app_warnings := app_warnings a |}.

Definition set_services (l : list Service) (a : App) : App :=
  {| app_id := app_id a; app_name := app_name a; app_root := app_root a;
     app_project := app_project a; app_compose := app_compose a;
     app_recipe := app_recipe a; app_config_id := app_config_id a;
     app_services := l;
     app_userConfRoot := app_userConfRoot a; app_domain := app_domain a;
     app_preLockfile := app_preLockfile a;
     app_configPath := app_configPath a;
     app_platformsh := app_platformsh a;
     app_events := app_events a; app_warnings := app_warnings a |}.

(** [app.addWarning(w)]. *)
Definition addWarning (x : jsval) : M unit :=
  update_app (λ a,
    {| app_id := app_id a; app_name := app_name a; app_root := app_root a;
       app_project := app_project a; app_compose := app_compose a;
       app_recipe := app_recipe a; app_config_id := app_config_id a;
       app_services := app_services a;
       app_userConfRoot := app_userConfRoot a; app_domain := app_domain a;
       app_preLockfile := app_preLockfile a;
       app_configPath := app_configPath a;
       app_platformsh := app_platformsh a;
       app_events := app_events a;
       app_warnings := app_warnings a ++ [x] |}) >>
  emit (EWarning x).

(** Assignments to the fields of [app.platformsh]. *)
Definition set_routes (v : jsval) (p : Platformsh) : Platformsh :=
  {| p_config := p_config p; p_domain := p_domain p; p_id := p_id p;
     p_tokenCache := p_tokenCache p; p_tokens := p_tokens p;
     p_routes := Some v; p_applications := p_applications p;
     p_closestApp := p_closestApp p;
     p_closestOpenCache := p_closestOpenCache p;
     p_relationships := p_relationships p; p_services := p_services p;
     p_runConfig := p_runConfig p |}.

Definition set_applications (v : list Application) (p : Platformsh)
  : Platformsh :=
  {| p_config := p_config p; p_domain := p_domain p; p_id := p_id p;
     p_tokenCache := p_tokenCache p; p_tokens := p_tokens p;
     p_routes := p_routes p; p_applications := Some v;
     p_closestApp := p_closestApp p;
     p_closestOpenCache := p_closestOpenCache p;
     p_relationships := p_relationships p; p_services := p_services p;
     p_runConfig := p_runConfig p |}.

Definition set_closestApp (v : option Application) (p : Platformsh)
  : Platformsh :=
  {| p_config := p_config p; p_domain := p_domain p; p_id := p_id p;
     p_tokenCache := p_tokenCache p; p_tokens := p_tokens p;
     p_routes := p_routes p; p_applications := p_applications p;
     p_closestApp := v;
     p_closestOpenCache := p_closestOpenCache p;
     p_relationships := p_relationships p; p_services := p_services p;
     p_runConfig := p_runConfig p |}.

Definition set_closestOpenCache (v : option CacheVal) (p : Platformsh)
  : Platformsh :=
  {| p_config := p_config p; p_domain := p_domain p; p_id := p_id p;
     p_tokenCache := p_tokenCache p; p_tokens := p_tokens p;
     p_routes := p_routes p; p_applications := p_applications p;
     p_closestApp := p_closestApp p;
     p_closestOpenCache := v;
     p_relationships := p_relationships p; p_services := p_services p;
     p_runConfig := p_runConfig p |}.

Definition set_relationships (v : jsval) (p : Platformsh) : Platformsh :=
  {| p_config := p_config p; p_domain := p_domain p; p_id := p_id p;
     p_tokenCache := p_tokenCache p; p_tokens := p_tokens p;
     p_routes := p_routes p; p_applications := p_applications p;
     p_closestApp := p_closestApp p;
     p_closestOpenCache := p_closestOpenCache p;
     p_relationships := Some v; p_services := p_services p;
     p_runConfig := p_runConfig p |}.

Definition set_pshServices (v : list PshService) (p : Platformsh)
  : Platformsh :=
  {| p_config := p_config p; p_domain := p_domain p; p_id := p_id p;
     p_tokenCache := p_tokenCache p; p_tokens := p_tokens p;
     p_routes := p_routes p; p_applications := p_applications p;
     p_closestApp := p_closestApp p;
     p_closestOpenCache := p_closestOpenCache p;
     p_relationships := p_relationships p; p_services := Some v;
     p_runConfig := p_runConfig p |}.

Definition set_runConfig (v : list RunConfig) (p : Platformsh) : Platformsh :=
  {| p_config := p_config p; p_domain := p_domain p; p_id := p_id p;
     p_tokenCache := p_tokenCache p; p_tokens := p_tokens p;
     p_routes := p_routes p; p_applications := p_applications p;
     p_closestApp := p_closestApp p;
     p_closestOpenCache := p_closestOpenCache p;
     p_relationships := p_relationships p; p_services := p_services p;
     p_runConfig := Some v |}.

(** [app.platformsh.<field> = v]; [app.platformsh] is set by the time a
    handler runs, reading a field of [undefined] is a [TypeError]. *)
Definition platformsh : M Platformsh :=
  λ w, match app_platformsh (w_app w) with
       | Some p => (w, Ok p)
       | None => (w, Throw (TypeError "app.platformsh is undefined"))
       end.

Definition update_platformsh (f : Platformsh → Platformsh) : M unit :=
  let* p := platformsh in update_app (set_platformsh (f p)).

(** ** Collaborators *)

(** The modules [app.js] requires whose code is elsewhere, the engine and the
    remote API, as an interface: their functions are parameters of the
    development. *)
Class Collaborators := {
  (* path.join and JSON.stringify *)
  path_join : list string → string;
  stringify : jsval → string;
  (* ./lib/config *)
  loadConfigFiles : string → RawConfig;
  parseRoutes : jsval → string → jsval;
  parseApps : jsval → jsval → list Application;
  findClosestApplication : string;
  pshconf_parseRelationships : jsval → option CacheVal → jsval;
  parseServices : jsval → jsval → list PshService;
  (* ./lib/run *)
  buildRunConfig : App → list RunConfig;
  (* ./lib/services and ./lib/warnings *)
  getLandoServices : list PshService → list PshService;
  unsupportedServices : string → jsval;
  (* ./lib/open *)
  parseOpenData : string → option (list obj);   (* None: it throws *)
  getIPAddress : jsval → string → prim;
  (* platformsh-client: the mail of the account, None when rejected *)
  getAccountInfo : string → option string;
  (* the engine: the standard output of the n-th attempt of a run and the
     data of a scan, None when the promise is rejected; the number of times
     lando.Promise.retry tries again *)
  engine_run : RunSpec → nat → option string;
  engine_scan : string → option jsval;
  max_retries : nat
}.

(** ** [lib/utils.js] *)

Module utils.

(** Modelled from the spec: [utils.sortTokens] is not in [app.js].  Spec
    4.2 has [merge(existing, incoming)] as: the lists "are concatenated,
    deduplicated by identity, and the result is sorted by recency
    descending"; the data model adds that "the newest record for a given
    identity wins on conflict".  The identity is the [email] field,
    recency the [date] field.  [upsert] is one step of the deduplication:
    the record takes the place of the one of its identity unless that one
    is strictly newer. *)
Fixpoint upsert (t : Token) (acc : list Token) : list Token :=
  match acc with
  | [] => [t]
  | u :: acc' =>
      if decide (email u = email t)
      then (if (date u <=? date t)%Z then t else u) :: acc'
      else u :: upsert t acc'
  end.

(** Modelled from the spec: the deduplication by identity of
    [utils.sortTokens] (spec 4.2), the newest record of an identity
    winning. *)
Definition dedupe (l : list Token) : list Token :=
  foldl (λ acc t, upsert t acc) [] l.

(** Modelled from the spec: one insertion of the sort "by recency
    descending" of [utils.sortTokens] (spec 4.2); records of the same date
    keep their order. *)
Fixpoint insert_desc (t : Token) (l : list Token) : list Token :=
  match l with
  | [] => [t]
  | u :: l' =>
      if (date u <=? date t)%Z then t :: u :: l' else u :: insert_desc t l'
  end.

(** Modelled from the spec: the sort "by recency descending" of
    [utils.sortTokens] (spec 4.2). *)
Definition sort_desc (l : list Token) : list Token :=
  foldr insert_desc [] l.

(** Modelled from the spec: [utils.sortTokens], which is not in [app.js]
    (spec 4.2): concatenate, deduplicate by identity, sort by recency
    descending. *)
Definition sortTokens (existing incoming : list Token) : list Token :=
  sort_desc (dedupe (existing ++ incoming)).

(** Modelled from the spec: the filter behind
    [utils.getNonApplicationServices] and [utils.getApplicationServices],
    which are not in [app.js]: the positions of the elements of [l] that
    satisfy [p], in order. *)
Definition positions (p : Service → bool) (l : list Service) : list nat :=
  filter (λ i, from_option p false (l !! i)) (seq 0 (length l)).

(** Modelled from the spec: [utils.getNonApplicationServices] is not in
    [app.js].  The glossary has a backing service as "a non-application
    container": the function is a filter, and what it returns are the
    service objects of the array themselves. *)
Definition getNonApplicationServices (l : list Service) : list nat :=
  positions (λ s, negb (svc_application s)) l.

(** Modelled from the spec: [utils.getApplicationServices] is not in
    [app.js].  The glossary has an application server as "a container
    running the end-user application code": the function is a filter, and
    what it returns are the service objects of the array themselves. *)
Definition getApplicationServices (l : list Service) : list nat :=
  positions svc_application l.

End utils.

(** ** [lib/open.js] *)

Module open.

(** Modelled from the spec: [open.parseRelationships] is not in [app.js].
    An application declares named relationships, each "bound to" a
    service: the parsed form is the list of these bindings, relationship
    name first. *)
Definition parseRelationships (relationships : list (string * string))
  : list (string * string) := relationships.

(** Modelled from the spec: [open.generateOpenPayload] is not in [app.js].
    Spec 4.3: the payload is built "by looking up, for every relationship
    name the application declares, the corresponding entries in the
    phase-1 result mapping", the mapping being "keyed by service name";
    spec 6: it is "a mapping from relationship name to list of endpoint
    descriptors".  A service with no entry contributes no endpoint. *)
Definition generateOpenPayload (serviceData : gmap string (list obj))
    (relationships : list (string * string)) : OpenPayload :=
  map (λ r, (r.1, default [] (serviceData !! r.2))) relationships.

End open.

(** ** The exported function and its synchronous handlers *)

Section Plugin.

Context `{Collaborators}.

(** [lando.cache.get(key) || []] for the token list. *)
Definition tokens_or_empty (v : option CacheVal) : list Token :=
  match v with Some (CTokens ts) => ts | _ => [] end.

(** [_.merge({}, metaData)]. *)
Definition meta_or_empty (v : option CacheVal) : obj :=
  match v with Some (CMeta o) => o | _ => [] end.

(** Lines 17 to 252: the function the module exports. *)
Definition plugin : M unit :=
  let* app := gets w_app in
  if decide (app_recipe app = Some "platformsh") then
    update_app (λ a, set_id (default (app_id a) (app_config_id a)) a) >>
    log AppLog LVerbose "identified a platformsh app" [] >>
    (let* a := gets w_app in
     log AppLog LDebug "reset app id to %s" [app_id a]) >>
    emit (ESanitize "platformsh-auth") >>
    let configPath :=
      path_join [app_userConfRoot app; "config"; app_name app] in
    update_app (set_configPath configPath) >>
    (let* dirs := gets w_dirs in
     if decide (configPath ∈ dirs) then ret tt else mkdirp configPath) >>
    log AppLog LDebug ("ensured " +:+ configPath +:+ " exists") [] >>
    (let* a := gets w_app in
     let* tokens := cache_get "platformsh.tokens" in
     update_app (set_platformsh
       {| p_config := loadConfigFiles (app_root a);
          p_domain := app_name a +:+ "." +:+ app_domain a;
          p_id := app_id a;
          p_tokenCache := "platformsh.tokens";
          p_tokens := tokens_or_empty tokens;
          p_routes := None; p_applications := None; p_closestApp := None;
          p_closestOpenCache := None; p_relationships := None;
          p_services := None; p_runConfig := None |})) >>
    log AppLog LSilly "loaded platform config files" [] >>
    on "pre-init" (Some 1) HPreInit >>
    forEach ["pull"; "push"]
      (λ command, on ("post-" +:+ command) None HPostCommand) >>
    on "post-init" None HPostInitRunConfig >>
    on "post-init" None HPostInitScan >>
    on "post-init" None HPostInitOpen
  else ret tt.

(** Lines 47 to 104: the [pre-init] handler. *)
Definition preInit : M unit :=
  let* p := platformsh in
  let* app := gets w_app in
  (if lodash.isEmpty (c_applications (p_config p))
   then log LandoLog LError
          ("Could not detect any valid .platform.app.yaml files in "
             +:+ app_root app +:+ " or its subdirs!") []
   else ret tt) >>
  on "post-start" (Some 9) HUnsupported >>
  let platformConfig := p_config p in
  update_platformsh
    (set_routes (parseRoutes (c_routes platformConfig) (p_domain p))) >>
  log AppLog LVerbose "parsed platformsh routes" [] >>
  log AppLog LSilly "platformsh routes are" [] >>
  let applications :=
    parseApps (c_applications platformConfig)
      (c_applicationFiles platformConfig) in
  update_platformsh (set_applications applications) >>
  log AppLog LVerbose "parsed platformsh applications" [] >>
  log AppLog LSilly "platformsh applications are" [] >>
  let closestApp :=
    lodash.find (λ a, bool_decide (a_configFile a = findClosestApplication))
      applications in
  update_platformsh (set_closestApp closestApp) >>
  match closestApp with
  | None => throw (TypeError "Cannot read property 'name' of undefined")
  | Some closest =>
      let* c := cache_get
        (app_name app +:+ "." +:+ a_name closest +:+ ".open.cache") in
      update_platformsh (set_closestOpenCache c) >>
      log AppLog LVerbose "the closest platform app is at %s"
        [a_configFile closest] >>
      log AppLog LVerbose "the closest open cache is %s" [] >>
      let relationships :=
        pshconf_parseRelationships (c_applications platformConfig) c in
      update_platformsh (set_relationships relationships) >>
      log AppLog LVerbose "determined platformsh relationships" [] >>
      log AppLog LSilly "platformsh relationships are" [] >>
      update_platformsh (set_pshServices
        (parseServices (c_services platformConfig) relationships)) >>
      log AppLog LVerbose "parsed platformsh services" [] >>
      log AppLog LSilly "platformsh services ares" [] >>
      (let* a := gets w_app in
       update_platformsh (set_runConfig (buildRunConfig a))) >>
      log AppLog LVerbose "built platformsh config jsons" [] >>
      log AppLog LSilly "generated platformsh runtime config is" []
  end.

(** Lines 57 to 64: the [post-start] handler of priority 9. *)
Definition unsupported : M unit :=
  let* p := platformsh in
  let services := default [] (p_services p) in
  let allServices := map ps_name services in
  let supportedServices := map ps_name (getLandoServices services) in
  let unsupportedServices' :=
    lodash.difference allServices supportedServices in
  if bool_decide (unsupportedServices' = []) then ret tt
  else addWarning
         (unsupportedServices (join ", " (map Some unsupportedServices'))).

(** Lines 111 to 127: the [post-pull] and [post-push] handler;
    [auth] is [answers.auth]. *)
Definition postCommand (auth : option string) : M unit :=
  match auth with
  | None => ret tt
  | Some a =>
      if String.eqb a "" then ret tt
      else match getAccountInfo a with
           | None => throw (Rejection "getAccountInfo")
           | Some mail =>
               let* now := gets w_now in
               let cache :=
                 {| token := a; email := mail;
                    date := (now `quot` 1000)%Z |} in
               let* p := platformsh in
               let* tokens := cache_get (p_tokenCache p) in
               cache_set (p_tokenCache p)
                 (CTokens
                    (utils.sortTokens (tokens_or_empty tokens) [cache]))
                 true >>
               let* app := gets w_app in
               let* metaData := cache_get (app_name app +:+ ".meta.cache") in
               cache_set (app_name app +:+ ".meta.cache")
                 (CMeta (lodash.merge (meta_or_empty metaData)
                           [("token", PStr (token cache));
                            ("email", PStr (email cache));
                            ("date", PNum (date cache))]))
                 true
           end
  end.

(** Lines 134 to 143. *)
Definition postInitRunConfig : M unit :=
  on "pre-start" (Some 1) HPreStartRunConfig.

Definition dumpRunConfig (service : RunConfig) : M unit :=
  writeFileSync (rc_file service) (stringify (rc_data service)) >>
  log AppLog LDebug
    ("dumped platform config file for " +:+ rc_service service +:+ " to "
       +:+ rc_file service) [].

Definition preStartRunConfig : M unit :=
  let* app := gets w_app in
  let* marker := cache_get (app_preLockfile app) in
  if cache_truthy marker then ret tt
  else let* p := platformsh in
       forEach (default [] (p_runConfig p)) dumpRunConfig.

End Plugin.

(** ** Live facts and the two-phase OPEN protocol *)

Definition set_openMerge (m : list (string * prim)) (s : Service) : Service :=
  {| svc_name := svc_name s; svc_version := svc_version s;
     svc_application := svc_application s; svc_hostname := svc_hostname s;
     svc_type := svc_type s; svc_opener := svc_opener s;
     svc_relationships := svc_relationships s; svc_openMerge := Some m |}.

(** [`${app.project}_${service.name}_1`]. *)
Definition containerId (app : App) (service : Service) : string :=
  app_project app +:+ "_" +:+ svc_name service +:+ "_1".

(** [`${app.name}.${appserver.name}.open.cache`]. *)
Definition openCacheKey (app : App) (appserver : Service) : string :=
  app_name app +:+ "." +:+ svc_name appserver +:+ ".open.cache".

(** Lines 189 to 202: the run of a backing service. *)
Definition serviceRun (app : App) (service : Service) : RunSpec :=
  {| r_id := containerId app service;
     r_cmd := [ArgStr "/helpers/psh-open.sh"; ArgStr (svc_opener service)];
     r_compose := app_compose app;
     r_project := app_project app;
     r_opts := {| o_mode := Some "attach"; o_hijack := None;
                  o_services := [svc_name service]; o_user := "root";
                  o_noTTY := Some true;
                  o_cstdio := ["ignore"; "pipe"; "ignore"];
                  o_silent := true |} |}.

(** Lines 235 to 247: the run of an application server. *)
Definition appRun (app : App) (appserver : Service) (openPayload : OpenPayload)
  : RunSpec :=
  {| r_id := containerId app appserver;
     r_cmd := [ArgStr "/helpers/psh-open.sh"; ArgRelationships openPayload];
     r_compose := app_compose app;
     r_project := app_project app;
     r_opts := {| o_mode := None; o_hijack := Some false;
                  o_services := [svc_name appserver]; o_user := "root";
                  o_noTTY := None;
                  o_cstdio := ["inherit"; "pipe"; "pipe"];
                  o_silent := true |} |}.

Fixpoint mapM {A B} (f : A → M B) (l : list A) : M (list B) :=
  match l with
  | [] => ret []
  | x :: l' => let* y := f x in let* ys := mapM f l' in ret (y :: ys)
  end.

(** A reference to a service object; the arrays of the handlers are filters
    of [app.config.services], so a reference always has its object. *)
Definition deref (service : nat) : M Service :=
  λ w, match app_services (w_app w) !! service with
       | Some s => (w, Ok s)
       | None => (w, Throw (TypeError "service is undefined"))
       end.

Section Open.

Context `{Collaborators}.

(** Lines 158 to 166: the object literal of [openMerge]. *)
Definition openMerge (app : App) (serviceConfig : Service) (data : jsval)
  : list (string * prim) :=
  [ ("cluster", PStr "bespin");
    ("fragment", PNull);
    ("hostname",
      PStr (app_name app +:+ "." +:+ svc_name serviceConfig
              +:+ ".service._.lndo.site"));
    ("ip", getIPAddress data (app_project app +:+ "_default"));
    ("rel", opt_prim (svc_hostname serviceConfig));
    ("service", PStr (svc_name serviceConfig));
    ("type",
      PStr (join ":" [svc_type serviceConfig; svc_version serviceConfig])) ].

(** Lines 153 to 167: what happens with the data of a scan.  The config is
    looked up by name in [app.config.services] and mutated in place. *)
Definition scanThen (service : nat) (data : jsval) : M unit :=
  let* s := deref service in
  let* app := gets w_app in
  match list_find (λ c, svc_name c = svc_name s) (app_services app) with
  | None => throw (TypeError "Cannot read property 'platformsh' of undefined")
  | Some (i, serviceConfig) =>
      update_app (set_services
        (<[i := set_openMerge (openMerge app serviceConfig data) serviceConfig]>
           (app_services app)))
  end.

(** Lines 149 to 168.  The scans run side by side; they are taken in the
    order of the array, and a rejected scan rejects the handler once the
    others are through. *)
Definition postInitScan : M unit :=
  let* app := gets w_app in
  let services := utils.getNonApplicationServices (app_services app) in
  on "post-start" (Some 1) (HPostStartScan services).

Fixpoint postStartScan (services : list nat) : M unit :=
  match services with
  | [] => ret tt
  | service :: rest =>
      let* s := deref service in
      let* app := gets w_app in
      emit (EEngineScan (containerId app s)) >>
      match engine_scan (containerId app s) with
      | Some data => scanThen service data >> postStartScan rest
      | None =>
          postStartScan rest >> throw (Rejection (containerId app s))
      end
  end.

(** Lines 179 to 188: the [post-init] handler of the OPEN protocol. *)
Definition postInitOpen : M unit :=
  let* app := gets w_app in
  let services := utils.getNonApplicationServices (app_services app) in
  let appservers := utils.getApplicationServices (app_services app) in
  let names l := omap (λ i, svc_name <$> app_services app !! i) l in
  log AppLog LVerbose "preparing to OPEN up platformsh containers..." [] >>
  log AppLog LDebug "found platformsh services to open" (names services) >>
  log AppLog LDebug "found platformsh appservers to open"
    (names appservers) >>
  on "post-start" (Some 8) (HPostStartOpen services appservers).

(** Lines 204 to 216: what happens with the output of a service's probe.
    [None] is the [undefined] the [catch] block returns. *)
Definition collect (service : nat) (data : string)
  : M (option (string * list obj)) :=
  let* s := deref service in
  match parseOpenData data with
  | Some parsedData =>
      ret (Some (svc_name s,
                 map (λ endpoint,
                        lodash.merge endpoint (default [] (svc_openMerge s)))
                     parsedData))
  | None =>
      log AppLog LError "could not parse json" [data] >> ret None
  end.

(** Lines 226 to 247: the mapper of an application server; the run it
    starts is returned. *)
Definition openAppserver (serviceData : gmap string (list obj))
    (appserver : nat) : M RunSpec :=
  let* a := deref appserver in
  let* app := gets w_app in
  let relationships := open.parseRelationships (svc_relationships a) in
  let openPayload := open.generateOpenPayload serviceData relationships in
  let openCache := openCacheKey app a in
  log AppLog LVerbose "[object Object] has relationship config" [] >>
  log AppLog LVerbose ("generated open payload for " +:+ svc_name a) [] >>
  cache_set openCache (COpen openPayload) true >>
  log AppLog LDebug ("cached open payload data to " +:+ openCache) [] >>
  emit (EEngineRun (appRun app a openPayload)) >>
  ret (appRun app a openPayload).

(** Lines 219 to 249: the callback behind [Promise.map(services, ...)]. *)
Definition inject (appservers : list nat)
    (data : list (option (string * list obj))) : M (list RunSpec) :=
  match lodash.fromPairs data ∅ with
  | None => throw (TypeError "Cannot read property '0' of undefined")
  | Some serviceData =>
      log AppLog LDebug "collected open data from platform services" [] >>
      mapM (openAppserver serviceData) appservers
  end.

(** *** The promises of the [post-start] handler of priority 8

    [Promise.map(services, f)] starts every [f(service)] at once and is
    fulfilled, with the results in the order of the array, when all of
    them are; it is rejected as soon as one of them is.  The probes then
    settle in any order: the handler is a transition system whose actions
    are the promises that settle. *)

Inductive Probe :=
| Running (attempt : nat)
| Settled (result : option (string * list obj))
| Failed.

Inductive Phase :=
| ProbingServices
| ProbingApps
| Complete
| Rejected (e : exn).

Record OpenState := {
  st_world : World;
  st_probes : list Probe;     (* one per element of [services] *)
  st_opens : list RunSpec;    (* the runs of phase 2 still going *)
  st_phase : Phase
}.

Inductive Action :=
| AProbe (i : nat)      (* an attempt of the probe of service [i] ends *)
| ABarrier              (* the promise of [Promise.map(services)] is fulfilled *)
| AOpen (i : nat)       (* a run of phase 2 ends *)
| AComplete.            (* the promise of [Promise.map(appservers)] is fulfilled *)

Definition reject (e : exn) (ph : Phase) : Phase :=
  match ph with
  | ProbingServices | ProbingApps => Rejected e
  | _ => ph
  end.

Definition settled (p : Probe) : option (option (string * list obj)) :=
  match p with Settled r => Some r | _ => None end.

(** Every probe has its result. *)
Fixpoint results (l : list Probe)
  : option (list (option (string * list obj))) :=
  match l with
  | [] => Some []
  | p :: l' =>
      match settled p, results l' with
      | Some r, Some rs => Some (r :: rs)
      | _, _ => None
      end
  end.

Definition exec {A} (m : M A) (w : World) : World := (m w).1.

(** The handler is called: every probe is started (line 189). *)
Definition startProbe (service : nat) : M unit :=
  let* s := deref service in
  let* app := gets w_app in
  emit (EEngineRun (serviceRun app s)).

Definition init (services : list nat) (w : World) : OpenState :=
  {| st_world := exec (forEach services startProbe) w;
     st_probes := map (λ _, Running 0) services;
     st_opens := [];
     st_phase := ProbingServices |}.

Definition step (services appservers : list nat) (a : Action)
    (s : OpenState) : option OpenState :=
  let w := st_world s in
  match a with
  | AProbe i =>
      match st_probes s !! i, services !! i with
      | Some (Running k), Some service =>
          match app_services (w_app w) !! service with
          | Some svc =>
              let run := serviceRun (w_app w) svc in
              match engine_run run k with
              | Some data =>
                  match (emit (EEngineDone run (Some data)) >>
                         collect service data) w with
                  | (w', Ok r) =>
                      Some {| st_world := w';
                              st_probes := <[i := Settled r]> (st_probes s);
                              st_opens := st_opens s;
                              st_phase := st_phase s |}
                  | (w', Throw e) =>
                      Some {| st_world := w';
                              st_probes := <[i := Failed]> (st_probes s);
                              st_opens := st_opens s;
                              st_phase := reject e (st_phase s) |}
                  end
              | None =>
                  if decide (k < max_retries) then
                    Some {| st_world :=
                              exec (emit (EEngineDone run None) >>
                                    emit (EEngineRun run)) w;
                            st_probes := <[i := Running (S k)]> (st_probes s);
                            st_opens := st_opens s;
                            st_phase := st_phase s |}
                  else
                    Some {| st_world := exec (emit (EEngineDone run None)) w;
                            st_probes := <[i := Failed]> (st_probes s);
                            st_opens := st_opens s;
                            st_phase :=
                              reject (Rejection (r_id run)) (st_phase s) |}
              end
          | None => None
          end
      | _, _ => None
      end
  | ABarrier =>
      match st_phase s, results (st_probes s) with
      | ProbingServices, Some data =>
          match inject appservers data w with
          | (w', Ok runs) =>
              Some {| st_world := w'; st_probes := st_probes s;
                      st_opens := runs; st_phase := ProbingApps |}
          | (w', Throw e) =>
              Some {| st_world := w'; st_probes := st_probes s;
                      st_opens := []; st_phase := Rejected e |}
          end
      | _, _ => None
      end
  | AOpen i =>
      match st_opens s !! i with
      | Some run =>
          Some {| st_world := exec (emit (EEngineDone run (engine_run run 0))) w;
                  st_probes := st_probes s;
                  st_opens := delete i (st_opens s);
                  st_phase :=
                    match engine_run run 0 with
                    | Some _ => st_phase s
                    | None => reject (Rejection (r_id run)) (st_phase s)
                    end |}
      | None => None
      end
  | AComplete =>
      match st_phase s, st_opens s with
      | ProbingApps, [] =>
          Some {| st_world := w; st_probes := st_probes s;
                  st_opens := []; st_phase := Complete |}
      | _, _ => None
      end
  end.

(** The states a run of the handler goes through. *)
Inductive reachable (services appservers : list nat) (w0 : World)
  : OpenState → Prop :=
| reach_init : reachable services appservers w0 (init services w0)
| reach_step a s s' :
    reachable services appservers w0 s →
    step services appservers a s = Some s' →
    reachable services appservers w0 s'.

(** A schedule is the list of the actions taken, in order. *)
Fixpoint run (services appservers : list nat) (schedule : list Action)
    (s : OpenState) : option OpenState :=
  match schedule with
  | [] => Some s
  | a :: schedule' =>
      match step services appservers a s with
      | Some s' => run services appservers schedule' s'
      | None => None
      end
  end.

(** An event of the trace that starts a run of phase 2. *)
Definition app_open (e : Effect) : bool :=
  match e with
  | EEngineRun r => bool_decide (o_hijack (r_opts r) = Some false)
  | _ => false
  end.

End Open.

(** ** A concrete installation

    One app, [myapp], with a backing service [db] (MySQL 10) and an
    application server [web] whose relationship [database] is bound to
    [db]; the collaborators are small executable stand-ins. *)

Module Example.

Definition dq : string := String (Ascii.ascii_of_nat 34) "".

(** The text [{"database":[{"host":"x"}]}]. *)
Definition probe_output : string :=
  "{" +:+ dq +:+ "database" +:+ dq +:+ ":[{" +:+ dq +:+ "host" +:+ dq
    +:+ ":" +:+ dq +:+ "x" +:+ dq +:+ "}]}".

Definition parse_app (v : jsval) : option Application :=
  match v with
  | JObj o =>
      match obj_get "name" o, obj_get "configFile" o with
      | Some (JStr n), Some (JStr f) =>
          Some {| a_name := n; a_configFile := f |}
      | _, _ => None
      end
  | _ => None
  end.

Definition collaborators (stdout : RunSpec → nat → option string)
  : Collaborators :=
  {| path_join := λ l, join "/" (map Some l);
     stringify := λ v, match v with JStr s => s | _ => "{}" end;
     loadConfigFiles := λ root,
       {| c_applications := JArr []; c_applicationFiles := JArr [];
          c_routes := JObj []; c_services := JObj [] |};
     parseRoutes := λ routes domain, routes;
     parseApps := λ apps files,
       match apps with JArr l => omap parse_app l | _ => [] end;
     findClosestApplication := "/app/.platform.app.yaml";
     pshconf_parseRelationships := λ apps cache, JObj [];
     parseServices := λ services relationships, [];
     buildRunConfig := λ app,
       [ {| rc_service := "web"; rc_file := "/conf/web.json";
            rc_data := JStr "{}" |} ];
     getLandoServices := λ l, l;
     unsupportedServices := JStr;
     parseOpenData := λ data,
       if decide (data = probe_output) then Some [[("host", JStr "x")]]
       else None;
     getIPAddress := λ data network,
       match data with
       | JObj o =>
           match obj_get network o with
           | Some (JStr ip) => PStr ip
           | _ => PUndefined
           end
       | _ => PUndefined
       end;
     getAccountInfo := λ tok, Some "a@x.com";
     engine_run := stdout;
     engine_scan := λ id, Some (JObj [("myapp_default", JStr "10.0.0.5")]);
     max_retries := 5 |}.

(** Every probe prints the endpoint text. *)
Definition env : Collaborators :=
  collaborators (λ r k, Some probe_output).

(** The probe of [db] prints something that does not parse. *)
Definition env_garbage : Collaborators :=
  collaborators (λ r k,
    if decide (r_id r = "myapp_db_1") then Some "oops"
    else Some probe_output).

Definition db : Service :=
  {| svc_name := "db"; svc_version := Some "10"; svc_application := false;
     svc_hostname := Some "db.internal"; svc_type := Some "mysql";
     svc_opener := "{}"; svc_relationships := []; svc_openMerge := None |}.

Definition redis : Service :=
  {| svc_name := "cache"; svc_version := Some "6";
     svc_application := false; svc_hostname := Some "cache.internal";
     svc_type := Some "redis"; svc_opener := "{}";
     svc_relationships := []; svc_openMerge := None |}.

Definition web : Service :=
  {| svc_name := "web"; svc_version := Some "7.4"; svc_application := true;
     svc_hostname := None; svc_type := Some "php"; svc_opener := "{}";
     svc_relationships := [("database", "db")]; svc_openMerge := None |}.

Definition app (recipe : string) (services : list Service) : App :=
  {| app_id := "myapp"; app_name := "myapp"; app_root := "/app";
     app_project := "myapp"; app_compose := ["/conf/compose.yml"];
     app_recipe := Some recipe; app_config_id := Some "abc123";
     app_services := services;
     app_userConfRoot := "/home/me/.lando"; app_domain := "example.test";
     app_preLockfile := "myapp.compose.cache";
     app_configPath := None; app_platformsh := None; app_events := [];
     app_warnings := [] |}.

Definition world (a : App) : World :=
  {| w_app := a; w_cache := ∅; w_dirs := ∅; w_files := ∅;
     w_now := 1700000000000; w_trace := [] |}.

(** The app before the module is loaded, and after. *)
Definition fresh : World := world (app "platformsh" [db; web]).
Definition loaded : World := exec (@plugin env) fresh.

(** [app.platformsh] as the module sets it. *)
Definition loaded_psh : Platformsh :=
  {| p_config :=
       {| c_applications := JArr []; c_applicationFiles := JArr [];
          c_routes := JObj []; c_services := JObj [] |};
     p_domain := "myapp.example.test"; p_id := "abc123";
     p_tokenCache := "platformsh.tokens"; p_tokens := [];
     p_routes := None; p_applications := None; p_closestApp := None;
     p_closestOpenCache := None; p_relationships := None;
     p_services := None; p_runConfig := None |}.
Definition drupal : World := world (app "drupal8" [db; web]).

(** [loaded] with one parsed application, declared in [/app/web]. *)
Definition one_app (p : Platformsh) : Platformsh :=
  {| p_config :=
       {| c_applications :=
            JArr [JObj [("name", JStr "web");
                        ("configFile", JStr "/app/web/.platform.app.yaml")]];
          c_applicationFiles := JArr []; c_routes := JObj [];
          c_services := JObj [] |};
     p_domain := p_domain p; p_id := p_id p;
     p_tokenCache := p_tokenCache p; p_tokens := p_tokens p;
     p_routes := None; p_applications := None; p_closestApp := None;
     p_closestOpenCache := None; p_relationships := None;
     p_services := None; p_runConfig := None |}.

Definition loaded_one_app : World :=
  exec (update_platformsh one_app) loaded.

(** [loaded] after a first [pre-init], with the start marker set or not. *)
Definition configured (p : Platformsh) : Platformsh :=
  set_runConfig (@buildRunConfig env (w_app loaded)) p.

Definition first_start : World := exec (update_platformsh configured) loaded.
Definition later_start : World :=
  with_cache (<["myapp.compose.cache" := CJson (JArr [])]> ∅) first_start.

(** The three services, [db] first. *)
Definition three : World := world (app "platformsh" [db; redis; web]).

(** [fresh] once the live facts of [db] are collected. *)
Definition scanned : World := exec (@postStartScan env [0]) fresh.

(** The endpoint of [db] and the payload of [web] the spec expects, with
    the rest of what [openMerge] adds. *)
Definition endpoint : obj :=
  [ ("host", JStr "x"); ("cluster", JStr "bespin"); ("fragment", JNull);
    ("hostname", JStr "myapp.db.service._.lndo.site");
    ("ip", JStr "10.0.0.5"); ("rel", JStr "db.internal");
    ("service", JStr "db"); ("type", JStr "mysql:10") ].

Definition payload : OpenPayload := [("database", [endpoint])].

(** A run of the handler: the probe of [db] ends, then the barrier. *)
Definition opened : OpenState :=
  default (init [0] scanned)
    (@run env [0] [1] [AProbe 0; ABarrier] (init [0] scanned)).

(** A run with three services in which the probe of [db] prints garbage:
    both probes end, then the barrier. *)
Definition rejected : OpenState :=
  default (init [0; 1] three)
    (@run env_garbage [0; 1] [2] [AProbe 0; AProbe 1; ABarrier]
       (init [0; 1] three)).

End Example.

(** ** What the handlers leave in the trace *)

Section Effects.

Context `{Collaborators}.

(** The effects of line 138 and line 139 for one element of
    [app.platformsh.runConfig]. *)
Definition dump_effects (service : RunConfig) : list Effect :=
  [ EWriteFile (rc_file service) (stringify (rc_data service));
    ELog AppLog LDebug
      ("dumped platform config file for " +:+ rc_service service +:+ " to "
         +:+ rc_file service) [] ].

Definition dump_files (runConfig : list RunConfig)
    (files : gmap string string) : gmap string string :=
  foldl (λ fs service,
           <[rc_file service := stringify (rc_data service)]> fs)
        files runConfig.


End Effects.

(** ** The invariant of the token cache *)

(** Sorted by recency, the most recent first. *)
Definition newest_first (l : list Token) : Prop :=
  Sorted (λ a b, (date b ≤ date a)%Z) l.


(** The clock moves on. *)
Definition with_now (n : Z) (w : World) : World :=
  {| w_app := w_app w; w_cache := w_cache w; w_dirs := w_dirs w;
     w_files := w_files w; w_now := n; w_trace := w_trace w |}.


(** ** Order in a trace *)

(** Every event [e] of the trace that satisfies [P] comes after an event
    [e'] with [Q e e']. *)
Definition preceded (P : Effect → Prop) (Q : Effect → Effect → Prop)
    (t : list Effect) : Prop :=
  ∀ u1 e u2, t = u1 ++ e :: u2 → P e → ∃ e', e' ∈ u1 ∧ Q e e'.

(** The payload of an application server (lines 226 and 227). *)
Definition payload_of (serviceData : gmap string (list obj))
    (appserver : Service) : OpenPayload :=
  open.generateOpenPayload serviceData
    (open.parseRelationships (svc_relationships appserver)).

(** What the mapper of line 225 leaves in the trace for one application
    server (lines 229 to 235). *)
Definition open_effects (app : App) (serviceData : gmap string (list obj))
    (appserver : Service) : list Effect :=
  [ ELog AppLog LVerbose "[object Object] has relationship config" [];
    ELog AppLog LVerbose
      ("generated open payload for " +:+ svc_name appserver) [];
    ECacheSet (openCacheKey app appserver)
      (COpen (payload_of serviceData appserver)) true;
    ELog AppLog LDebug
      ("cached open payload data to " +:+ openCacheKey app appserver) [];
    EEngineRun (appRun app appserver (payload_of serviceData appserver)) ].

(** The message of line 222. *)
Definition collected : Effect :=
  ELog AppLog LDebug "collected open data from platform services" [].

(** ** The invariant of a run of the OPEN handler *)

Section OpenInvariant.

Context `{Collaborators}.

(** No event of the trace starts a run of phase 2. *)
Definition quiet (t : list Effect) : Prop :=
  Forall (λ e, app_open e = false) t.

(** The result of lines 204 to 216 for the output [data] of [svc]. *)
Definition collected_of (svc : Service) (data : string)
  : option (string * list obj) :=
  match parseOpenData data with
  | Some parsedData =>
      Some (svc_name svc,
            map (λ endpoint,
                   lodash.merge endpoint (default [] (svc_openMerge svc)))
                parsedData)
  | None => None
  end.

Definition is_open (e : Effect) : Prop := app_open e = true.

(** The probe of [svc] has ended with an output. *)
Definition done_event (app : App) (svc : Service) (e' : Effect) : Prop :=
  ∃ data, e' = EEngineDone (serviceRun app svc) (Some data).

(** [e] opens an application server and [e'] caches its payload. *)
Definition cached_before (app : App) (e e' : Effect) : Prop :=
  ∃ a p, e = EEngineRun (appRun app a p)
         ∧ e' = ECacheSet (openCacheKey app a) (COpen p) true.

(** What holds in every state of a run that starts in [w0]. *)
Definition open_inv (services : list nat) (w0 : World) (s : OpenState)
: Prop :=
  w_app (st_world s) = w_app w0
  ∧ length (st_probes s) = length services
  ∧ ∃ t, w_trace (st_world s) = w_trace w0 ++ t
    ∧ preceded is_open (λ _ e', e' = collected) t
    ∧ (∀ i service svc,
         services !! i = Some service →
         app_services (w_app w0) !! service = Some svc →
         preceded is_open (λ _ e', done_event (w_app w0) svc e') t)
    ∧ (∀ i r,
         st_probes s !! i = Some (Settled r) →
         ∃ service svc e',
           services !! i = Some service
           ∧ app_services (w_app w0) !! service = Some svc
           ∧ e' ∈ t ∧ done_event (w_app w0) svc e')
    ∧ preceded is_open (cached_before (w_app w0)) t
    ∧ (st_phase s = ProbingServices → Forall (λ e, ¬ is_open e) t)
    ∧ (∀ e, e ∈ t → is_open e →
         ∃ data serviceData,
           results (st_probes s) = Some data
           ∧ lodash.fromPairs data ∅ = Some serviceData
           ∧ ∀ e, e ∈ t → is_open e →
               ∃ a, e = EEngineRun
                          (appRun (w_app w0) a (payload_of serviceData a))).

End OpenInvariant.

(** ** What the handlers leave behind *)

(** The registrations of lines 47, 111, 134, 149 and 179, in order. *)
Definition plugin_handlers : list (string * option nat * Handler) :=
  [ ("pre-init", Some 1, HPreInit);
    ("post-pull", None, HPostCommand);
    ("post-push", None, HPostCommand);
    ("post-init", None, HPostInitRunConfig);
    ("post-init", None, HPostInitScan);
    ("post-init", None, HPostInitOpen) ].

(** [app] with one more handler. *)
Definition registered (event : string) (priority : option nat) (h : Handler)
    (a : App) : App :=
  {| app_id := app_id a; app_name := app_name a; app_root := app_root a;
     app_project := app_project a; app_compose := app_compose a;
     app_recipe := app_recipe a; app_config_id := app_config_id a;
     app_services := app_services a;
     app_userConfRoot := app_userConfRoot a; app_domain := app_domain a;
     app_preLockfile := app_preLockfile a;
     app_configPath := app_configPath a;
     app_platformsh := app_platformsh a;
     app_events := app_events a ++ [(event, priority, h)];
     app_warnings := app_warnings a |}.

(** [app] with one more warning. *)
Definition warned (x : jsval) (a : App) : App :=
  {| app_id := app_id a; app_name := app_name a; app_root := app_root a;
     app_project := app_project a; app_compose := app_compose a;
     app_recipe := app_recipe a; app_config_id := app_config_id a;
     app_services := app_services a;
     app_userConfRoot := app_userConfRoot a; app_domain := app_domain a;
     app_preLockfile := app_preLockfile a;
     app_configPath := app_configPath a;
     app_platformsh := app_platformsh a;
     app_events := app_events a;
     app_warnings := app_warnings a ++ [x] |}.

(** The record of line 118. *)
Definition fresh_token (a mail : string) (now : Z) : Token :=
  {| token := a; email := mail; date := (now `quot` 1000)%Z |}.

Definition token_fields (t : Token) : list (string * prim) :=
  [("token", PStr (token t)); ("email", PStr (email t));
   ("date", PNum (date t))].

(** The key of line 123. *)
Definition metaCacheKey (app : App) : string :=
  app_name app +:+ ".meta.cache".

Section Outcomes.

Context `{Collaborators}.

(** The directory of line 27. *)
Definition configPath_of (app : App) : string :=
  path_join [app_userConfRoot app; "config"; app_name app].

(** The applications of line 76 and the test of line 81. *)
Definition parsed_applications (p : Platformsh) : list Application :=
  parseApps (c_applications (p_config p)) (c_applicationFiles (p_config p)).

Definition is_closest (a : Application) : bool :=
  bool_decide (a_configFile a = findClosestApplication).

(** The key of line 82. *)
Definition closestOpenCacheKey (app : App) (closest : Application) : string :=
  app_name app +:+ "." +:+ a_name closest +:+ ".open.cache".

(** What [app.platformsh] is once lines 67 to 97 are through, for the
    closest application [closest]. *)
Definition parsed_platformsh (p : Platformsh) (app : App)
    (cache : gmap string CacheVal) (closest : Application) : Platformsh :=
  let platformConfig := p_config p in
  let seed := cache !! closestOpenCacheKey app closest in
  let relationships :=
    pshconf_parseRelationships (c_applications platformConfig) seed in
  {| p_config := platformConfig; p_domain := p_domain p; p_id := p_id p;
     p_tokenCache := p_tokenCache p; p_tokens := p_tokens p;
     p_routes := Some (parseRoutes (c_routes platformConfig) (p_domain p));
     p_applications := Some (parsed_applications p);
     p_closestApp := Some closest;
     p_closestOpenCache := seed;
     p_relationships := Some relationships;
     p_services :=
       Some (parseServices (c_services platformConfig) relationships);
     p_runConfig := p_runConfig p |}.

(** The [app] that line 101 hands to [runconf.buildRunConfig]. *)
Definition parsed_app (p : Platformsh) (w : World) (closest : Application)
  : App :=
  set_platformsh (parsed_platformsh p (w_app w) (w_cache w) closest)
    (registered "post-start" (Some 9) HUnsupported (w_app w)).

(** The names of line 60: the parsed services [getLandoServices] leaves
    out. *)
Definition unsupported_names (p : Platformsh) : list string :=
  lodash.difference (ps_name <$> default [] (p_services p))
    (ps_name <$> getLandoServices (default [] (p_services p))).

End Outcomes.

(** ** The scans of the [post-start] handler of priority 1 *)

(** A service but for its live facts. *)
Definition without_openMerge (s : Service) : Service :=
  {| svc_name := svc_name s; svc_version := svc_version s;
     svc_application := svc_application s; svc_hostname := svc_hostname s;
     svc_type := svc_type s; svc_opener := svc_opener s;
     svc_relationships := svc_relationships s; svc_openMerge := None |}.

(** The containers that are scanned (line 153), in the order of the
    array. *)
Definition scan_ids (app : App) (services : list nat) : list string :=
  omap (λ service, containerId app <$> app_services app !! service) services.

Section Scans.

Context `{Collaborators}.

(** A service once its container is scanned: with the live facts of lines
    158 to 166 when the scan gives data, as it was when the scan is
    rejected. *)
Definition scan_result (app : App) (svc : Service) : Service :=
  match engine_scan (containerId app svc) with
  | Some data => set_openMerge (openMerge app svc data) svc
  | None => svc
  end.

End Scans.

(** ** The probes of the OPEN handler *)

Section Probes.

Context `{Collaborators}.

(** What the probe of [svc] becomes when its attempt [k] ends (lines 189 to
    216): settled with what the output gives, started again when the run
    is rejected and [Promise.retry] has attempts left, failed when it has
    none. *)
Definition attempt (app : App) (svc : Service) (k : nat) : Probe :=
  match engine_run (serviceRun app svc) k with
  | Some data => Settled (collected_of svc data)
  | None => if decide (k < max_retries) then Running (S k) else Failed
  end.

(** The attempts behind the state of a probe. *)
Definition probe_ok (app : App) (svc : Service) (p : Probe) : Prop :=
  let run := serviceRun app svc in
  match p with
  | Running k =>
      (k ≤ max_retries)%nat ∧ ∀ j, j < k → engine_run run j = None
  | Settled r =>
      ∃ k data,
        (k ≤ max_retries)%nat
        ∧ (∀ j, j < k → engine_run run j = None)
        ∧ engine_run run k = Some data
        ∧ r = collected_of svc data
  | Failed => ∀ j, (j ≤ max_retries)%nat → engine_run run j = None
  end.

End Probes.

Section FirstAttempts.

Context `{Collaborators}.

(** What the probe of [svc] gives when its first attempt is the one that
    counts. *)
Definition probe_result (app : App) (svc : Service)
  : option (string * list obj) :=
  match engine_run (serviceRun app svc) 0 with
  | Some data => collected_of svc data
  | None => None
  end.

(** The schedule in which the probes end in the order of the array, then
    the runs of the application servers. *)
Definition in_order (services appservers : list nat) : list Action :=
  (AProbe <$> seq 0 (length services))
    ++ ABarrier :: replicate (length appservers) (AOpen 0) ++ [AComplete].

End FirstAttempts.

(** The value [_.merge] leaves under a key for the source value [v] when
    the object has [old] there: an [undefined] source value does not
    replace a value that is there. *)
Definition merged_value (v : prim) (old : option jsval) : jsval :=
  match v with
  | PUndefined => default JUndefined old
  | _ => of_prim v
  end.

(** A second installation: the application of [web] is declared in the
    root of the app, where the closest application file is looked for. *)
Module Scenario.

Definition closest : Application :=
  {| a_name := "web"; a_configFile := "/app/.platform.app.yaml" |}.

Definition with_closest (p : Platformsh) : Platformsh :=
  {| p_config :=
       {| c_applications :=
            JArr [JObj [("name", JStr "web");
                        ("configFile", JStr "/app/.platform.app.yaml")]];
          c_applicationFiles := JArr []; c_routes := JObj [];
          c_services := JObj [] |};
     p_domain := p_domain p; p_id := p_id p;
     p_tokenCache := p_tokenCache p; p_tokens := p_tokens p;
     p_routes := None; p_applications := None; p_closestApp := None;
     p_closestOpenCache := None; p_relationships := None;
     p_services := None; p_runConfig := None |}.

Definition psh : Platformsh := with_closest Example.loaded_psh.

Definition loaded : World :=
  exec (update_platformsh with_closest) Example.loaded.

(** The engine cannot run anything in the container of [db]. *)
Definition env_down : Collaborators :=
  Example.collaborators (λ r k,
    if decide (r_id r = "myapp_db_1") then None
    else Some Example.probe_output).

(** With three services: the probe of [db] has failed, after its six
    attempts, and the probe of [cache] is still running. *)
Definition down : OpenState :=
  default (init [0; 1] Example.three)
    (@run env_down [0; 1] [2] (replicate 6 (AProbe 0))
       (init [0; 1] Example.three)).

(** [down] once the probe of [cache] has ended. *)
Definition down_settled : OpenState :=
  default down (@step env_down [0; 1] [2] (AProbe 1) down).

(** The handler has run to its end. *)
Definition completed : OpenState :=
  default (init [0] Example.fresh)
    (@run Example.env [0] [1] (in_order [0] [1]) (init [0] Example.fresh)).

End Scenario.

(** ** The [post-init] handlers *)

(** The three handlers of lines 134, 149 and 179, in the order they were
    registered. *)
Definition postInit : M unit :=
  postInitRunConfig >> (postInitScan >> postInitOpen).

(** An event that only logs or registers a handler. *)
Definition registers_or_logs (e : Effect) : bool :=
  match e with
  | ELog _ _ _ _ | EOn _ _ _ => true
  | _ => false
  end.

(** * Properties *)

(** ** C10: other recipes *)

Section OtherRecipes.

Context `{Collaborators}.

(** C10.  When [app.config.recipe] is not ['platformsh'] the exported
    function returns at once: the world is the one it was given, so no
    handler is registered, no directory is made, no field of [app] is
    changed and nothing is logged. *)
Theorem plugin_other_recipe (w : World) :
  app_recipe (w_app w) ≠ Some "platformsh" →
  plugin w = (w, Ok tt).
Proof.
  intros Hrecipe. unfold plugin, bind, gets.
  by destruct (decide (app_recipe (w_app w) = Some "platformsh")).
Qed.

End OtherRecipes.

Example plugin_platformsh_registers :
  app_events (w_app Example.loaded) =
    [ ("pre-init", Some 1, HPreInit);
      ("post-pull", None, HPostCommand);
      ("post-push", None, HPostCommand);
      ("post-init", None, HPostInitRunConfig);
      ("post-init", None, HPostInitScan);
      ("post-init", None, HPostInitOpen) ]
  ∧ w_dirs Example.loaded = {[ "/home/me/.lando/config/myapp" ]}
  ∧ app_id (w_app Example.loaded) = "abc123".
Proof. split_and!; vm_compute; reflexivity. Qed.

Lemma plugin_other_recipe_witness :
  app_recipe (w_app Example.drupal) ≠ Some "platformsh"
  ∧ @plugin Example.env Example.drupal = (Example.drupal, Ok tt).
Proof.
  assert (Hne : app_recipe (w_app Example.drupal) ≠ Some "platformsh")
    by (intros Heq; discriminate Heq).
  split; [exact Hne | exact (plugin_other_recipe Example.drupal Hne)].
Defined.

(** ** Objects and [_.merge] *)

Lemma obj_get_set_eq k v (o : obj) : obj_get k (obj_set k v o) = Some v.
Proof.
  induction o as [|[k' v'] o IH]; simpl.
  - by rewrite decide_True.
  - destruct (decide (k = k')) as [->|Hne]; simpl.
    + by rewrite decide_True.
    + by rewrite decide_False.
Qed.

Lemma obj_get_set_ne k k' v (o : obj) :
  k ≠ k' → obj_get k (obj_set k' v o) = obj_get k o.
Proof.
  intros Hne. induction o as [|[k'' v''] o IH]; simpl.
  - by rewrite decide_False.
  - destruct (decide (k' = k'')) as [->|Hne']; simpl.
    + by rewrite !decide_False.
    + destruct (decide (k = k'')); [done | exact IH].
Qed.

Lemma assignMergeValue_get_ne k k' v (o : obj) :
  k ≠ k' → obj_get k (lodash.assignMergeValue o k' v) = obj_get k o.
Proof.
  intros Hne. unfold lodash.assignMergeValue.
  destruct v; try by apply obj_get_set_ne.
  destruct (obj_get k' o); [done | by apply obj_get_set_ne].
Qed.

Lemma assignMergeValue_get_eq k v (o : obj) :
  v ≠ PUndefined →
  obj_get k (lodash.assignMergeValue o k v) = Some (of_prim v).
Proof.
  intros Hv. unfold lodash.assignMergeValue.
  destruct v; try done; apply obj_get_set_eq.
Qed.

(** A key the source does not have is left as it is. *)
Lemma merge_get_other k (o : obj) source :
  k ∉ source.*1 → obj_get k (lodash.merge o source) = obj_get k o.
Proof.
  unfold lodash.merge. revert o.
  induction source as [|[k' v] source IH]; intros o Hk; [done|].
  simpl in *. apply not_elem_of_cons in Hk as [Hne Hk].
  rewrite IH by done. by apply assignMergeValue_get_ne.
Qed.

(** A key the source has once, with a value that is not [undefined], gets
    that value. *)
Lemma merge_get k v (o : obj) source1 source2 :
  v ≠ PUndefined → k ∉ source2.*1 →
  obj_get k (lodash.merge o (source1 ++ (k, v) :: source2)) = Some (of_prim v).
Proof.
  intros Hv Hk. unfold lodash.merge. rewrite foldl_app. simpl.
  fold (lodash.merge (lodash.assignMergeValue
    (foldl (λ acc kv, lodash.assignMergeValue acc kv.1 kv.2) o source1) k v)
    source2).
  rewrite merge_get_other by done. by apply assignMergeValue_get_eq.
Qed.

Section Hostname.

Context `{Collaborators}.

(** ** C6: the hostname of an endpoint *)

(** C6, as the code has it.  Whatever the endpoint and whatever the scan
    found, the [hostname] merged into an endpoint of a backing service is
    [<app>.<service>.service._.lndo.site]: the suffix is the literal
    [lndo.site], and [app._config.domain] has no part in it.  So it is for
    every endpoint of the phase-1 data of a service whose live facts were
    collected. *)
Theorem endpoint_hostname_lndo_site (app : App) (serviceConfig : Service)
    (data : jsval) :
  let hostname :=
    app_name app +:+ "." +:+ svc_name serviceConfig
      +:+ ".service._.lndo.site" in
  (∀ endpoint : obj,
     obj_get "hostname"
       (lodash.merge endpoint (openMerge app serviceConfig data))
     = Some (JStr hostname))
  ∧ (∀ (stdout : string) (result : string * list obj) (endpoint : obj),
       svc_openMerge serviceConfig = Some (openMerge app serviceConfig data) →
       collected_of serviceConfig stdout = Some result →
       endpoint ∈ result.2 →
       obj_get "hostname" endpoint = Some (JStr hostname)).
Proof.
  intros hostname.
  assert (Hmerge : ∀ endpoint : obj,
            obj_get "hostname"
              (lodash.merge endpoint (openMerge app serviceConfig data))
            = Some (JStr hostname)).
  { intros endpoint. unfold openMerge.
    apply (merge_get "hostname" (PStr _) endpoint
             [("cluster", PStr "bespin"); ("fragment", PNull)]); [done|].
    cbn. rewrite !elem_of_cons, elem_of_nil.
    intros [?|[?|[?|[?|[]]]]]; discriminate. }
  split; [exact Hmerge|].
  intros stdout result endpoint Hlive Hcollected Hin.
  unfold collected_of in Hcollected. rewrite Hlive in Hcollected.
  destruct (parseOpenData stdout) as [parsedData|]; [|done].
  injection Hcollected as <-. simpl in Hin.
  apply list_elem_of_fmap in Hin as (endpoint' & -> & _). apply Hmerge.
Qed.

End Hostname.

(** C6, as the claim has it, fails: with [example.test] as the configured
    domain the hostname of an endpoint of [db] still ends in [lndo.site]. *)
Lemma endpoint_hostname_not_configured_domain :
  app_domain (w_app Example.fresh) = "example.test"
  ∧ obj_get "hostname"
      (lodash.merge [("host", JStr "x")]
         (@openMerge Example.env (w_app Example.fresh) Example.db JNull))
    = Some (JStr "myapp.db.service._.lndo.site")
  ∧ "myapp.db.service._.lndo.site" ≠ "myapp.db.service._.example.test".
Proof. split; [done | split; [by vm_compute | done]]. Qed.

(** ** C3 and C8: the [pre-init] handler *)

Section PreInit.

Context `{Collaborators}.




End PreInit.



(** C8, on the code.  One application is parsed, declared in [/app/web],
    and the closest application file is [/app/.platform.app.yaml]: [_.find]
    gives [undefined], line 82 reads its [name], and the handler ends with
    a [TypeError] where the claim has a [ConfigError]. *)
Theorem closest_app_lookup_unguarded :
  lodash.find
    (λ a, bool_decide
            (a_configFile a = @findClosestApplication Example.env))
    [ {| a_name := "web"; a_configFile := "/app/web/.platform.app.yaml" |} ]
  = None
  ∧ p_applications
      <$> app_platformsh (w_app (@preInit Example.env Example.loaded_one_app).1)
    = Some (Some [ {| a_name := "web";
                      a_configFile := "/app/web/.platform.app.yaml" |} ])
  ∧ (@preInit Example.env Example.loaded_one_app).2
    = Throw (TypeError "Cannot read property 'name' of undefined").
Proof. split_and!; by vm_compute. Qed.

(** ** C9: the run config is dumped on a first start only *)

Section RunConfig.

Context `{Collaborators}.

Lemma forEach_dumpRunConfig (runConfig : list RunConfig) (w : World) :
  ∃ w', forEach runConfig dumpRunConfig w = (w', Ok tt)
        ∧ w_files w' = dump_files runConfig (w_files w)
        ∧ w_trace w' = w_trace w ++ flat_map dump_effects runConfig
        ∧ w_app w' = w_app w ∧ w_cache w' = w_cache w
        ∧ w_dirs w' = w_dirs w.
Proof.
  revert w. induction runConfig as [|service runConfig IH]; intros w.
  - exists w. simpl. by rewrite app_nil_r.
  - destruct (IH (exec (dumpRunConfig service) w))
      as (w' & Hrun & Hfiles & Htrace & Happ & Hcache & Hdirs).
    exists w'. split_and!.
    + simpl. exact Hrun.
    + by rewrite Hfiles.
    + rewrite Htrace. simpl. by rewrite <- !app_assoc.
    + by rewrite Happ.
    + by rewrite Hcache.
    + by rewrite Hdirs.
Qed.


End RunConfig.


Example later_start_writes_nothing :
  @preStartRunConfig Example.env Example.later_start
  = (Example.later_start, Ok tt).
Proof. reflexivity. Qed.

(** ** C4: the token cache *)

Section Tokens.

Import utils.

Implicit Types (t u : Token) (l acc : list Token).

(** *** [upsert] *)






(** *** [dedupe] *)







(** *** [sort_desc] *)







(** *** [sortTokens] *)








End Tokens.

Section Refresh.

Context `{Collaborators}.



End Refresh.

(** The example of the spec: T1, then T2 a minute later, both of the account
    [a@x.com]. *)
Example refresh_twice :
  w_cache
    (exec (@postCommand Example.env (Some "T2"))
       (with_now 1700000060000
          (exec (@postCommand Example.env (Some "T1")) Example.loaded)))
    !! "platformsh.tokens"
  = Some (CTokens [ {| token := "T2"; email := "a@x.com";
                       date := 1700000060 |} ]).
Proof. by vm_compute. Qed.

(** Whatever the merge is, when its results are in order of recency it
    cannot give back a list that is not. *)
Example sorted_merge_changes_unsorted
    (merge : list Token → list Token → list Token) (l : list Token) :
  (∀ existing incoming, newest_first (merge existing incoming)) →
  ¬ newest_first l → merge l l ≠ l.
Proof. intros Hsorted Hnot Heq. apply Hnot. rewrite <- Heq. apply Hsorted. Qed.


(** ** C1, C2 and C7: the OPEN protocol *)

(** *** Order in a trace *)

Lemma app_eq_split {A} (t1 t2 u1 u2 : list A) (e : A) :
  t1 ++ t2 = u1 ++ e :: u2 →
  (∃ v, t1 = u1 ++ e :: v ∧ u2 = v ++ t2)
  ∨ (∃ v, u1 = t1 ++ v ∧ t2 = v ++ e :: u2).
Proof.
  revert u1. induction t1 as [|x t1 IH]; intros u1 Heq; simpl in *.
  - right. by exists u1.
  - destruct u1 as [|y u1]; simpl in *.
    + injection Heq; intros Ht Hx; subst. left. by exists t1.
    + injection Heq; intros Heq' Hx; subst.
      destruct (IH u1 Heq') as [(v & -> & ->)|(v & -> & ->)].
      * left. by exists v.
      * right. by exists v.
Qed.

Section Preceded.

Context (P : Effect → Prop) (Q : Effect → Effect → Prop).

Lemma preceded_nil : preceded P Q [].
Proof. intros u1 e u2 Heq. destruct u1; discriminate. Qed.

(** Events that do not satisfy [P] can be added at the end. *)
Lemma preceded_app_quiet t t' :
  preceded P Q t → Forall (λ e, ¬ P e) t' → preceded P Q (t ++ t').
Proof.
  intros Ht Hquiet u1 e u2 Heq HP.
  apply app_eq_split in Heq as [(v & -> & ->)|(v & -> & ->)].
  - by apply (Ht u1 e v).
  - exfalso. rewrite Forall_forall in Hquiet.
    apply (Hquiet e); [|done].
    apply elem_of_app; right. apply list_elem_of_here.
Qed.

(** Events that are preceded among themselves can be added at the end. *)
Lemma preceded_app t t' :
  preceded P Q t → preceded P Q t' → preceded P Q (t ++ t').
Proof.
  intros Ht Ht' u1 e u2 Heq HP.
  apply app_eq_split in Heq as [(v & -> & ->)|(v & -> & ->)].
  - by apply (Ht u1 e v).
  - destruct (Ht' v e u2 eq_refl HP) as (e' & Hin & HQ).
    exists e'. split; [|done]. apply elem_of_app. by right.
Qed.

(** Anything can be added after a trace that has what every event needs. *)
Lemma preceded_app_after t t' :
  preceded P Q t → (∀ e, P e → ∃ e', e' ∈ t ∧ Q e e') →
  preceded P Q (t ++ t').
Proof.
  intros Ht Hhas u1 e u2 Heq HP.
  apply app_eq_split in Heq as [(v & -> & ->)|(v & -> & ->)].
  - by apply (Ht u1 e v).
  - destruct (Hhas e HP) as (e' & Hin & HQ).
    exists e'. split; [|done]. apply elem_of_app. by left.
Qed.

Lemma preceded_quiet t : Forall (λ e, ¬ P e) t → preceded P Q t.
Proof. intros Hquiet. apply (preceded_app_quiet [] t preceded_nil Hquiet). Qed.

End Preceded.

Section OpenFacts.

Context `{Collaborators}.

(** *** What the callbacks do to the world *)

Lemma collect_spec (service : nat) (data : string) (w : World) :
  collect service data w =
    match app_services (w_app w) !! service with
    | None => (w, Throw (TypeError "service is undefined"))
    | Some s =>
        (match parseOpenData data with
         | Some _ => w
         | None =>
             with_trace
               (w_trace w
                  ++ [ELog AppLog LError "could not parse json" [data]]) w
         end, Ok (collected_of s data))
    end.
Proof.
  unfold collect, collected_of, bind, deref.
  destruct (app_services (w_app w) !! service); [|done].
  by destruct (parseOpenData data).
Qed.

Lemma openAppserver_spec serviceData (appserver : nat) (w : World) :
  openAppserver serviceData appserver w =
    match app_services (w_app w) !! appserver with
    | None => (w, Throw (TypeError "service is undefined"))
    | Some a =>
        (with_trace (w_trace w ++ open_effects (w_app w) serviceData a)
           (with_cache
              (<[openCacheKey (w_app w) a := COpen (payload_of serviceData a)]>
                 (w_cache w)) w),
         Ok (appRun (w_app w) a (payload_of serviceData a)))
    end.
Proof.
  unfold openAppserver, bind, deref.
  destruct (app_services (w_app w) !! appserver) as [a|]; [|done].
  destruct w as [app c d f n t].
  cbn -[String.append]. unfold with_trace, with_cache.
  cbn -[String.append]. rewrite <- !app_assoc. reflexivity.
Qed.


Lemma mapM_openAppserver serviceData (appservers : list nat) (w : World) :
  ∃ servers w' r,
    mapM (openAppserver serviceData) appservers w = (w', r)
    ∧ w_app w' = w_app w
    ∧ w_trace w' =
        w_trace w ++ flat_map (open_effects (w_app w) serviceData) servers
    ∧ (∀ runs, r = Ok runs →
         runs = map (λ a, appRun (w_app w) a (payload_of serviceData a))
                    servers
         ∧ Forall2 (λ i a, app_services (w_app w) !! i = Some a)
                   appservers servers).
Proof.
  revert w. induction appservers as [|i appservers IH]; intros w.
  - exists [], w, (Ok []). simpl. rewrite app_nil_r.
    split_and!; try done. intros runs [= <-]. by split.
  - simpl. unfold bind at 1. rewrite openAppserver_spec.
    destruct (app_services (w_app w) !! i) as [a|] eqn:Ha.
    + set (w1 := with_trace _ _).
      destruct (IH w1) as (servers & w' & r & Hrun & Happ & Htrace & Hok).
      exists (a :: servers), w'.
      unfold bind at 1. rewrite Hrun.
      destruct r as [runs|e].
      * eexists. split_and!; try done.
        -- simpl. rewrite Htrace. simpl. by rewrite <- app_assoc.
        -- intros runs' [= <-]. destruct (Hok runs eq_refl) as [-> Hall].
           split; [done|]. by constructor.
      * eexists. split_and!; try done.
        simpl. rewrite Htrace. simpl. by rewrite <- app_assoc.
    + exists [], w. eexists. simpl. rewrite app_nil_r.
      split_and!; done.
Qed.

Lemma inject_spec (appservers : list nat) data (w : World) :
  match lodash.fromPairs data ∅ with
  | None =>
      inject appservers data w
      = (w, Throw (TypeError "Cannot read property '0' of undefined"))
  | Some serviceData =>
      ∃ servers w' r,
        inject appservers data w = (w', r)
        ∧ w_app w' = w_app w
        ∧ w_trace w' =
            w_trace w ++
              collected
                :: flat_map (open_effects (w_app w) serviceData) servers
        ∧ (∀ runs, r = Ok runs →
             runs = map (λ a, appRun (w_app w) a (payload_of serviceData a))
                        servers
             ∧ Forall2 (λ i a, app_services (w_app w) !! i = Some a)
                       appservers servers)
  end.
Proof.
  unfold inject. destruct (lodash.fromPairs data ∅) as [serviceData|]; [|done].
  set (w1 := with_trace (w_trace w ++ [collected]) w).
  destruct (mapM_openAppserver serviceData appservers w1)
    as (servers & w' & r & Hrun & Happ & Htrace & Hok).
  exists servers, w', r. split_and!; try done.
  simpl in Htrace. by rewrite <- app_assoc in Htrace.
Qed.


(** *** One transition *)

Lemma step_inv services appservers a (s s' : OpenState) :
  step services appservers a s = Some s' →
  w_app (st_world s') = w_app (st_world s)
  ∧ ∃ t', w_trace (st_world s') = w_trace (st_world s) ++ t'
    ∧ match a with
      | AProbe i =>
          quiet t'
          ∧ st_opens s' = st_opens s
          ∧ (st_phase s' = st_phase s
             ∨ ∃ e, st_phase s' = reject e (st_phase s))
          ∧ ∃ k p service svc,
              st_probes s !! i = Some (Running k)
              ∧ st_probes s' = <[i := p]> (st_probes s)
              ∧ services !! i = Some service
              ∧ app_services (w_app (st_world s)) !! service = Some svc
              ∧ ∀ r, p = Settled r →
                  ∃ data,
                    engine_run (serviceRun (w_app (st_world s)) svc) k
                      = Some data
                    ∧ r = collected_of svc data
                    ∧ EEngineDone (serviceRun (w_app (st_world s)) svc)
                        (Some data) ∈ t'
      | ABarrier =>
          st_phase s = ProbingServices
          ∧ st_probes s' = st_probes s
          ∧ ∃ data,
              results (st_probes s) = Some data
              ∧ match lodash.fromPairs data ∅ with
                | None =>
                    t' = [] ∧ st_opens s' = []
                    ∧ st_phase s' =
                        Rejected
                          (TypeError "Cannot read property '0' of undefined")
                | Some serviceData =>
                    st_phase s' ≠ ProbingServices
                    ∧ ∃ servers,
                        t' = collected
                               :: flat_map
                                    (open_effects (w_app (st_world s))
                                       serviceData) servers
                end
      | AOpen i =>
          quiet t' ∧ st_probes s' = st_probes s
          ∧ (st_phase s' = st_phase s
             ∨ ∃ e, st_phase s' = reject e (st_phase s))
          ∧ ∃ run, st_opens s !! i = Some run
      | AComplete =>
          t' = [] ∧ st_probes s' = st_probes s
          ∧ st_phase s = ProbingApps ∧ st_opens s = []
          ∧ st_phase s' = Complete
      end.
Proof.
  destruct s as [w probes opens phase]. destruct a as [i| |i|]; simpl.
  - destruct (probes !! i) as [[k| |]|] eqn:Hprobe; try done.
    destruct (services !! i) as [service|] eqn:Hservice; try done.
    destruct (app_services (w_app w) !! service) as [svc|] eqn:Hsvc;
      try done.
    destruct (engine_run (serviceRun (w_app w) svc) k) as [data|] eqn:Hrun.
    + unfold bind at 1. simpl. rewrite collect_spec. simpl. rewrite Hsvc.
      intros [= <-]. simpl. split; [by destruct (parseOpenData data)|].
      exists (EEngineDone (serviceRun (w_app w) svc) (Some data)
                :: match parseOpenData data with
                   | Some _ => []
                   | None =>
                       [ELog AppLog LError "could not parse json" [data]]
                   end).
      split; [destruct (parseOpenData data); simpl;
                by rewrite <- ?app_assoc|].
      split; [destruct (parseOpenData data); by repeat constructor|].
      split; [done|]. split; [by left|].
      exists k, (Settled (collected_of svc data)), service, svc.
      split_and!; try done. intros r [= <-]. exists data.
      split_and!; try done. apply list_elem_of_here.
    + destruct (decide (k < max_retries)); intros [= <-]; simpl;
        (split; [done|]).
      * eexists. split; [by rewrite <- app_assoc|].
        split; [by repeat constructor|]. split; [done|].
        split; [by left|].
        exists k, (Running (S k)), service, svc. split_and!; done.
      * eexists. split; [reflexivity|].
        split; [by repeat constructor|]. split; [done|].
        split; [right; by eexists|].
        exists k, Failed, service, svc. split_and!; done.
  - destruct phase; try done.
    destruct (results probes) as [data|] eqn:Hresults; try done.
    pose proof (inject_spec appservers data w) as Hinject.
    destruct (lodash.fromPairs data ∅) as [serviceData|] eqn:Hpairs.
    + destruct Hinject as (servers & w' & r & Hrun & Happ & Htrace & _).
      rewrite Hrun.
      destruct r; intros [= <-]; simpl; (split; [done|]);
        eexists; (split; [exact Htrace|]); (split; [done|]);
        (split; [done|]); exists data; rewrite Hpairs;
        (split; [done|]); (split; [done|]); by exists servers.
    + rewrite Hinject. intros [= <-]. simpl. split; [done|].
      exists []. rewrite app_nil_r. split_and!; try done.
      exists data. by rewrite Hpairs.
  - destruct (opens !! i) as [run|] eqn:Hopen; try done.
    intros [= <-]. simpl. split; [done|].
    eexists. split; [reflexivity|]. split_and!.
    + by repeat constructor.
    + done.
    + destruct (engine_run run 0); [by left | right; by eexists].
    + by exists run.
  - destruct phase; try done. destruct opens; try done.
    intros [= <-]. simpl. split; [done|].
    exists []. by rewrite app_nil_r.
Qed.


(** *** The invariant of a run *)

Lemma quiet_not_open t : quiet t → Forall (λ e, ¬ is_open e) t.
Proof.
  intros Hquiet. eapply Forall_impl; [exact Hquiet|].
  unfold is_open. intros e Hfalse Hopen. congruence.
Qed.

Lemma results_lookup l data i p :
  results l = Some data → l !! i = Some p →
  ∃ r, p = Settled r ∧ data !! i = Some r.
Proof.
  revert data i. induction l as [|q l IH]; intros data i Hres Hi; [done|].
  simpl in Hres. destruct q as [|r|]; try done. simpl in Hres.
  destruct (results l) as [rs|] eqn:Hrs; try done.
  injection Hres as <-. destruct i as [|i]; simpl in *.
  - injection Hi as <-. by exists r.
  - by apply (IH rs).
Qed.


Lemma fromPairs_undefined {V} (data : list (option (string * V))) i m :
  data !! i = Some None → lodash.fromPairs data m = None.
Proof.
  revert i m. induction data as [|[[k v]|] data IH]; intros i m Hi; try done.
  destruct i as [|i]; [done|]. simpl in *. by apply (IH i).
Qed.

Lemma open_effects_cached app serviceData a :
  preceded is_open (cached_before app) (open_effects app serviceData a).
Proof.
  intros u1 e u2 Heq Hopen. unfold open_effects in Heq.
  do 4 (destruct u1 as [|? u1]; simpl in Heq;
        [injection Heq as <- _; discriminate Hopen
        |injection Heq as <- Heq]).
  destruct u1 as [|? u1]; simpl in Heq.
  - injection Heq as <- _. eexists. split.
    + apply list_elem_of_further, list_elem_of_further, list_elem_of_here.
    + by eexists _, _.
  - injection Heq as _ Heq. by destruct u1.
Qed.

Lemma barrier_trace_cached app serviceData servers :
  preceded is_open (cached_before app)
    (collected :: flat_map (open_effects app serviceData) servers).
Proof.
  apply (preceded_app _ _ [collected]).
  - apply preceded_quiet. repeat constructor. discriminate.
  - induction servers as [|a servers IH].
    + apply preceded_nil.
    + apply (preceded_app _ _ (open_effects app serviceData a));
        [apply open_effects_cached | exact IH].
Qed.

Lemma barrier_trace_opens app serviceData servers e :
  e ∈ collected :: flat_map (open_effects app serviceData) servers →
  is_open e →
  ∃ a, e = EEngineRun (appRun app a (payload_of serviceData a)).
Proof.
  intros [->|Hin]%elem_of_cons Hopen; [discriminate Hopen|].
  apply list_elem_of_In, in_flat_map in Hin as (a & _ & Hin).
  apply list_elem_of_In in Hin. unfold open_effects in Hin.
  repeat (apply elem_of_cons in Hin as [->|Hin];
          [try discriminate Hopen|]).
  - by exists a.
  - by apply elem_of_nil in Hin.
Qed.

Lemma startProbe_spec (service : nat) (w : World) :
  startProbe service w =
    match app_services (w_app w) !! service with
    | Some svc =>
        (with_trace (w_trace w ++ [EEngineRun (serviceRun (w_app w) svc)]) w,
         Ok tt)
    | None => (w, Throw (TypeError "service is undefined"))
    end.
Proof.
  unfold startProbe, bind, deref.
  by destruct (app_services (w_app w) !! service).
Qed.

Lemma forEach_cons {A} (f : A → M unit) (x : A) (l : list A) (w : World) :
  forEach (x :: l) f w =
    match f x w with
    | (w', Ok _) => forEach l f w'
    | (w', Throw e) => (w', Throw e)
    end.
Proof. reflexivity. Qed.

Lemma startProbes_spec (services : list nat) (w : World) :
  ∃ t, quiet t
       ∧ w_app (exec (forEach services startProbe) w) = w_app w
       ∧ w_trace (exec (forEach services startProbe) w) = w_trace w ++ t.
Proof.
  unfold exec. revert w.
  induction services as [|service services IH]; intros w.
  - exists []. split_and!; [constructor | done | by rewrite app_nil_r].
  - rewrite forEach_cons, startProbe_spec.
    destruct (app_services (w_app w) !! service) as [svc|].
    + set (w1 := with_trace _ w).
      destruct (IH w1) as (t & Hquiet & Happ & Htrace).
      exists (EEngineRun (serviceRun (w_app w) svc) :: t). split_and!.
      * by constructor.
      * exact Happ.
      * rewrite Htrace. simpl. by rewrite <- app_assoc.
    + exists []. split_and!; [constructor | done | by rewrite app_nil_r].
Qed.

Section Run.

Variables (services appservers : list nat) (w0 : World).

Lemma open_inv_init : open_inv services w0 (init services w0).
Proof.
  destruct (startProbes_spec services w0) as (t & Hquiet & Happ & Htrace).
  apply quiet_not_open in Hquiet.
  split; [exact Happ|]. split; [apply length_map|].
  exists t. split; [exact Htrace|]. split_and!.
  - by apply preceded_quiet.
  - intros. by apply preceded_quiet.
  - intros i r Hi. simpl in Hi.
    apply list_lookup_fmap_Some in Hi as (? & ? & ?). done.
  - by apply preceded_quiet.
  - done.
  - intros e Hin Hopen. rewrite Forall_forall in Hquiet.
    by destruct (Hquiet e Hin).
Qed.

Lemma open_inv_step a s s' :
  open_inv services w0 s → step services appservers a s = Some s' →
  open_inv services w0 s'.
Proof.
  intros (Happ & Hlen & t & Htrace & Hcollected & Hdone & Hsettled
          & Hcached & Hquiet & Hopens) Hstep.
  apply step_inv in Hstep as (Happ' & t' & Htrace' & Hcase).
  rewrite Happ in *.
  split; [congruence|].
  destruct a as [i| |i|].
  - (* a probe *)
    destruct Hcase as (Hquiet' & _ & Hphase & k & p & service & svc
                       & Hrunning & Hprobes & Hservice & Hsvc & Hp).
    pose proof (quiet_not_open _ Hquiet') as Hnot.
    split; [by rewrite Hprobes, length_insert|].
    exists (t ++ t'). split; [by rewrite Htrace', Htrace, app_assoc|].
    split_and!.
    + by apply preceded_app_quiet.
    + intros. by eapply preceded_app_quiet; eauto.
    + intros j r Hj. rewrite Hprobes in Hj.
      destruct (decide (i = j)) as [<-|Hne].
      * rewrite list_lookup_insert_eq in Hj
          by (by eapply lookup_lt_Some).
        injection Hj as ->.
        destruct (Hp r eq_refl) as (data & _ & _ & Hin).
        exists service, svc. eexists. split_and!; try done.
        -- apply elem_of_app. by right.
        -- by exists data.
      * rewrite list_lookup_insert_ne in Hj by done.
        destruct (Hsettled j r Hj) as (service' & svc' & e' & ? & ? & ? & ?).
        exists service', svc', e'. split_and!; try done.
        apply elem_of_app. by left.
    + by apply preceded_app_quiet.
    + intros Hphase'. apply Forall_app. split; [|done]. apply Hquiet.
      destruct Hphase as [<-|[e He]]; [done|].
      rewrite He in Hphase'. by destruct (st_phase s).
    + assert (Hold : ∀ e, e ∈ t ++ t' → is_open e → e ∈ t).
      { intros e [Hin|Hin]%elem_of_app Hopen; [done|].
        rewrite Forall_forall in Hnot. by destruct (Hnot e Hin). }
      intros e Hin Hopen.
      destruct (Hopens e (Hold e Hin Hopen) Hopen)
        as (data & serviceData & Hres & _).
      destruct (results_lookup _ _ _ _ Hres Hrunning) as (? & ? & _).
      done.
  - (* the barrier *)
    destruct Hcase as (Hphase & Hprobes & data & Hres & Hcase).
    split; [by rewrite Hprobes|].
    specialize (Hquiet Hphase).
    destruct (lodash.fromPairs data ∅) as [serviceData|] eqn:Hpairs.
    + destruct Hcase as (Hphase' & servers & ->).
      exists (t ++ collected
                :: flat_map (open_effects (w_app w0) serviceData) servers).
      split; [by rewrite Htrace', Htrace, app_assoc|].
      rewrite Hprobes.
      split_and!.
      * rewrite cons_middle, app_assoc. apply preceded_app_after.
        -- apply preceded_app_quiet; [done|].
           repeat constructor. discriminate.
        -- intros _ _. exists collected. split; [|done].
           apply elem_of_app; right. apply list_elem_of_here.
      * intros i service svc Hservice Hsvc.
        apply preceded_app_after; [by eapply Hdone|].
        intros _ _.
        assert (Hi : i < length (st_probes s))
          by (rewrite Hlen; by eapply lookup_lt_Some).
        apply lookup_lt_is_Some in Hi as [p Hp].
        destruct (results_lookup _ _ _ _ Hres Hp) as (r & -> & _).
        destruct (Hsettled i r Hp)
          as (service' & svc' & e' & Hservice' & Hsvc' & Hin & He').
        exists e'. split; [done|]. congruence.
      * intros i r Hi.
        destruct (Hsettled i r Hi) as (service' & svc' & e' & ? & ? & ? & ?).
        exists service', svc', e'. split_and!; try done.
        apply elem_of_app. by left.
      * apply preceded_app; [done | apply barrier_trace_cached].
      * done.
      * intros _ _ _. exists data, serviceData. split_and!; try done.
        intros e [Hin|Hin]%elem_of_app Hopen.
        -- rewrite Forall_forall in Hquiet. by destruct (Hquiet e Hin).
        -- by eapply barrier_trace_opens.
    + destruct Hcase as (-> & _ & Hphase').
      exists t. rewrite app_nil_r in Htrace'.
      split; [congruence|]. rewrite Hprobes. split_and!; done.
  - (* a run of phase 2 ends *)
    destruct Hcase as (Hquiet' & Hprobes & Hphase & _).
    pose proof (quiet_not_open _ Hquiet') as Hnot.
    split; [by rewrite Hprobes|].
    exists (t ++ t'). split; [by rewrite Htrace', Htrace, app_assoc|].
    rewrite Hprobes. split_and!.
    + by apply preceded_app_quiet.
    + intros. by eapply preceded_app_quiet; eauto.
    + intros j r Hj.
      destruct (Hsettled j r Hj) as (service' & svc' & e' & ? & ? & ? & ?).
      exists service', svc', e'. split_and!; try done.
      apply elem_of_app. by left.
    + by apply preceded_app_quiet.
    + intros Hphase'. apply Forall_app. split; [|done]. apply Hquiet.
      destruct Hphase as [<-|[e He]]; [done|].
      rewrite He in Hphase'. by destruct (st_phase s).
    + assert (Hold : ∀ e, e ∈ t ++ t' → is_open e → e ∈ t).
      { intros e [Hin|Hin]%elem_of_app Hopen; [done|].
        rewrite Forall_forall in Hnot. by destruct (Hnot e Hin). }
      intros e Hin Hopen.
      destruct (Hopens e (Hold e Hin Hopen) Hopen)
        as (data & serviceData & Hres & Hpairs & Hall).
      exists data, serviceData. split_and!; try done.
      intros e0 Hin0 Hopen0. apply Hall; [|done]. by apply Hold.
  - (* the end *)
    destruct Hcase as (-> & Hprobes & Hphase & _ & Hphase').
    split; [by rewrite Hprobes|].
    exists t. rewrite app_nil_r in Htrace'.
    split; [congruence|]. rewrite Hprobes. split_and!; try done.
    intros Hservices. congruence.
Qed.

Lemma reachable_open_inv s :
  reachable services appservers w0 s → open_inv services w0 s.
Proof.
  induction 1 as [|a s s' _ IH Hstep].
  - apply open_inv_init.
  - by eapply open_inv_step.
Qed.

Lemma run_reachable schedule s s' :
  reachable services appservers w0 s →
  run services appservers schedule s = Some s' →
  reachable services appservers w0 s'.
Proof.
  revert s. induction schedule as [|a schedule IH]; intros s Hs Hrun.
  - simpl in Hrun. by injection Hrun as <-.
  - simpl in Hrun.
    destruct (step services appservers a s) as [s1|] eqn:Hstep; [|done].
    apply (IH s1); [|done]. by eapply reach_step.
Qed.



(** C7.  In every state a run of the handler reaches, the event that
    starts the run of an application server with a payload comes after
    the event that sets the cache key [<app>.<appserver>.open.cache] to
    that payload, with [persist: true]. *)
Theorem payload_cached_before_open (s : OpenState) (u1 u2 : list Effect)
    (a : Service) (p : OpenPayload) :
  reachable services appservers w0 s →
  w_trace (st_world s)
    = w_trace w0 ++ u1 ++ EEngineRun (appRun (w_app w0) a p) :: u2 →
  ECacheSet (openCacheKey (w_app w0) a) (COpen p) true ∈ u1.
Proof.
  intros Hreach Htrace.
  destruct (reachable_open_inv s Hreach)
    as (_ & _ & t & Htrace' & _ & _ & _ & Hcached & _).
  rewrite Htrace in Htrace'. apply app_inv_head in Htrace' as <-.
  destruct (Hcached u1 _ u2 eq_refl eq_refl)
    as (e' & Hin & a' & p' & Hrun & ->).
  injection Hrun as _ -> Hname.
  unfold openCacheKey. by rewrite Hname.
Qed.

(** A probe whose output never parses settles with [undefined], and
    [_.fromPairs] then throws: the handler is rejected and no run of
    phase 2 is ever started. *)
Lemma parse_failure_blocks_phase_two (i service : nat) (svc : Service)
    (s : OpenState) :
  services !! i = Some service →
  app_services (w_app w0) !! service = Some svc →
  (∀ k data,
     engine_run (serviceRun (w_app w0) svc) k = Some data →
     parseOpenData data = None) →
  reachable services appservers w0 s →
  w_app (st_world s) = w_app w0
  ∧ (∃ p, st_probes s !! i = Some p ∧ ∀ r, p = Settled r → r = None)
  ∧ (st_phase s = ProbingServices ∨ ∃ e, st_phase s = Rejected e)
  ∧ st_opens s = []
  ∧ ∃ t, w_trace (st_world s) = w_trace w0 ++ t ∧ quiet t.
Proof.
  intros Hservice Hsvc Hbad. induction 1 as [|a s s' _ IH Hstep].
  - destruct (startProbes_spec services w0) as (t & Hquiet & Happ & Htrace).
    split_and!; try done.
    + exists (Running 0). split; [|done]. simpl.
      apply list_lookup_fmap_Some. by exists service.
    + by left.
    + by exists t.
  - destruct IH as (Happ & (p & Hp & Hnone) & Hphase & Hopens
                    & t & Htrace & Hquiet).
    apply step_inv in Hstep as (Happ' & t' & Htrace' & Hcase).
    rewrite Happ in *. split; [congruence|].
    destruct a as [j| |j|].
    + destruct Hcase as (Hquiet' & Hopens' & Hphase' & k & q & service'
                         & svc' & Hrunning & Hprobes & Hservice' & Hsvc'
                         & Hq).
      split_and!.
      * rewrite Hprobes. destruct (decide (j = i)) as [->|Hne].
        -- exists q. split.
           ++ apply list_lookup_insert_eq. by eapply lookup_lt_Some.
           ++ intros r ->. destruct (Hq r eq_refl) as (data & Hrun & -> & _).
              assert (svc' = svc) as -> by congruence.
              unfold collected_of. by rewrite (Hbad k data Hrun).
        -- exists p. by rewrite list_lookup_insert_ne.
      * destruct Hphase' as [->|[e ->]]; [done|].
        destruct Hphase as [->|[e' ->]]; right; by eexists.
      * congruence.
      * exists (t ++ t'). split; [by rewrite Htrace', Htrace, app_assoc|].
        by apply Forall_app.
    + destruct Hcase as (_ & Hprobes & data & Hres & Hcase).
      destruct (results_lookup _ _ _ _ Hres Hp) as (r & -> & Hdata).
      rewrite (Hnone r eq_refl) in Hdata.
      rewrite (fromPairs_undefined data i ∅ Hdata) in Hcase.
      destruct Hcase as (-> & Hopens' & Hphase').
      split_and!.
      * exists (Settled r). by rewrite Hprobes.
      * right. by eexists.
      * done.
      * exists t. by rewrite Htrace', app_nil_r.
    + destruct Hcase as (_ & _ & _ & run & Hrun).
      by rewrite Hopens in Hrun.
    + destruct Hcase as (_ & _ & Hphase' & _).
      destruct Hphase as [Hphase|[e Hphase]]; congruence.
Qed.

End Run.

End OpenFacts.

(** *** The runs of the concrete installation *)

Lemma opened_reachable :
  @reachable Example.env [0] [1] Example.scanned Example.opened.
Proof.
  apply (@run_reachable Example.env [0] [1] Example.scanned
           [AProbe 0; ABarrier] (init [0] Example.scanned)).
  - apply reach_init.
  - by vm_compute.
Qed.


(** In the same run the cache is set among the seven events before. *)
Lemma payload_cached_before_open_witness :
  @reachable Example.env [0] [1] Example.scanned Example.opened
  ∧ ECacheSet "myapp.web.open.cache" (COpen Example.payload) true
      ∈ take 7 (drop 1 (w_trace (st_world Example.opened))).
Proof.
  split; [exact opened_reachable|].
  refine (@payload_cached_before_open Example.env [0] [1] Example.scanned
            Example.opened
            (take 7 (drop 1 (w_trace (st_world Example.opened)))) []
            Example.web Example.payload opened_reachable _).
  by vm_compute.
Defined.

(** C2, on the code.  Three services; the probe of [db] prints [oops],
    which does not parse, the probe of [cache] prints an endpoint.  The
    error is logged with the raw output and [db] settles with [undefined];
    [cache] settles with its data; and then [_.fromPairs] throws on the
    [undefined]: the handler is rejected with a [TypeError], the data of
    [cache] goes nowhere, and in no state of any run is a run of phase 2
    started. *)
Theorem parse_failure_rejects_the_run :
  (∀ s, @reachable Example.env_garbage [0; 1] [2] Example.three s →
        st_opens s = []
        ∧ (st_phase s = ProbingServices ∨ ∃ e, st_phase s = Rejected e)
        ∧ ∃ t, w_trace (st_world s) = w_trace Example.three ++ t ∧ quiet t)
  ∧ @reachable Example.env_garbage [0; 1] [2] Example.three Example.rejected
  ∧ st_probes Example.rejected
    = [Settled None; Settled (Some ("cache", [[("host", JStr "x")]]))]
  ∧ ELog AppLog LError "could not parse json" ["oops"]
      ∈ w_trace (st_world Example.rejected)
  ∧ st_phase Example.rejected
    = Rejected (TypeError "Cannot read property '0' of undefined").
Proof.
  split_and!.
  - intros s Hreach.
    destruct (@parse_failure_blocks_phase_two Example.env_garbage [0; 1] [2]
                Example.three 0 0 Example.db s eq_refl eq_refl)
      as (_ & _ & Hphase & Hopens & Htrace); try done.
    intros k data Hrun. vm_compute in Hrun. injection Hrun as <-.
    reflexivity.
  - apply (@run_reachable Example.env_garbage [0; 1] [2] Example.three
             [AProbe 0; AProbe 1; ABarrier] (init [0; 1] Example.three)).
    + apply reach_init.
    + by vm_compute.
  - by vm_compute.
  - apply (list_elem_of_lookup_2 _ 3). by vm_compute.
  - by vm_compute.
Qed.

Section Payload.

Context `{Collaborators}.

Lemma postStartScan_one (service : nat) (svc : Service) (data : jsval)
    (w : World) :
  app_services (w_app w) !! service = Some svc →
  engine_scan (containerId (w_app w) svc) = Some data →
  exec (postStartScan [service]) w
  = exec (scanThen service data)
      (with_trace (w_trace w ++ [EEngineScan (containerId (w_app w) svc)]) w).
Proof.
  intros Hsvc Hscan.
  unfold exec, postStartScan, bind, deref, gets, emit, modify. simpl.
  rewrite Hsvc. simpl. rewrite Hscan.
  by destruct (scanThen service data _) as [w' []].
Qed.

Lemma scanThen_found (service i : nat) (svc serviceConfig : Service)
    (data : jsval) (w : World) :
  app_services (w_app w) !! service = Some svc →
  list_find (λ c, svc_name c = svc_name svc) (app_services (w_app w))
    = Some (i, serviceConfig) →
  exec (scanThen service data) w
  = with_app
      (set_services
         (<[i := set_openMerge (openMerge (w_app w) serviceConfig data)
                   serviceConfig]> (app_services (w_app w)))
         (w_app w)) w.
Proof.
  intros Hsvc Hfind.
  unfold exec, scanThen, bind, deref, gets. rewrite Hsvc. simpl.
  by rewrite Hfind.
Qed.

Lemma run_cons services appservers (a : Action) (schedule : list Action)
    (s : OpenState) :
  run services appservers (a :: schedule) s
  = match step services appservers a s with
    | Some s' => run services appservers schedule s'
    | None => None
    end.
Proof. reflexivity. Qed.

Lemma step_probe_parsed services appservers (s : OpenState) (i k : nat)
    (service : nat) (svc : Service) (data : string) (parsedData : list obj) :
  st_probes s !! i = Some (Running k) →
  services !! i = Some service →
  app_services (w_app (st_world s)) !! service = Some svc →
  engine_run (serviceRun (w_app (st_world s)) svc) k = Some data →
  parseOpenData data = Some parsedData →
  step services appservers (AProbe i) s
  = Some {| st_world :=
              with_trace
                (w_trace (st_world s)
                   ++ [EEngineDone (serviceRun (w_app (st_world s)) svc)
                         (Some data)])
                (st_world s);
            st_probes :=
              <[i := Settled
                       (Some (svc_name svc,
                              map (λ endpoint,
                                     lodash.merge endpoint
                                       (default [] (svc_openMerge svc)))
                                  parsedData))]> (st_probes s);
            st_opens := st_opens s;
            st_phase := st_phase s |}.
Proof.
  intros Hprobe Hservice Hsvc Hrun Hparse.
  unfold step. rewrite Hprobe, Hservice, Hsvc, Hrun.
  unfold bind at 1. simpl. rewrite collect_spec. simpl.
  rewrite Hsvc. unfold collected_of. by rewrite Hparse.
Qed.

(** C5.  The installation of the example: the service [db] of type [mysql]
    and version [10], the application [web] with the relationship
    [database] bound to [db].  When the scan of [db] gives the address
    [10.0.0.5] and its probe prints an output whose endpoint list is
    [[{host: x}]], the run of the handler opens [web] with a payload whose
    [database] entry is that one endpoint, with [host] x, [ip] 10.0.0.5,
    [service] db and [type] mysql:10 (type and version joined by a colon);
    the same payload is in the cache under [myapp.web.open.cache]. *)
Theorem open_payload_example (scan : jsval) :
  engine_scan "myapp_db_1" = Some scan →
  getIPAddress scan "myapp_default" = PStr "10.0.0.5" →
  engine_run (serviceRun (w_app Example.fresh) Example.db) 0
    = Some Example.probe_output →
  parseOpenData Example.probe_output = Some [[("host", JStr "x")]] →
  let services :=
    utils.getNonApplicationServices (app_services (w_app Example.fresh)) in
  let appservers :=
    utils.getApplicationServices (app_services (w_app Example.fresh)) in
  let scanned := exec (postStartScan services) Example.fresh in
  ∃ s endpoint,
    run services appservers [AProbe 0; ABarrier] (init services scanned)
      = Some s
    ∧ st_phase s = ProbingApps
    ∧ st_opens s
      = [appRun (w_app Example.fresh) Example.web [("database", [endpoint])]]
    ∧ w_cache (st_world s) !! "myapp.web.open.cache"
      = Some (COpen [("database", [endpoint])])
    ∧ obj_get "host" endpoint = Some (JStr "x")
    ∧ obj_get "ip" endpoint = Some (JStr "10.0.0.5")
    ∧ obj_get "service" endpoint = Some (JStr "db")
    ∧ obj_get "type" endpoint = Some (JStr "mysql:10").
Proof.
  intros Hscan Hip Hrun Hparse services appservers scanned.
  change services with [0] in *. change appservers with [1] in *.
  assert (Hscanned :
    scanned
    = with_app
        (set_services
           [ set_openMerge
               [ ("cluster", PStr "bespin"); ("fragment", PNull);
                 ("hostname", PStr "myapp.db.service._.lndo.site");
                 ("ip", PStr "10.0.0.5"); ("rel", PStr "db.internal");
                 ("service", PStr "db"); ("type", PStr "mysql:10") ]
               Example.db;
             Example.web ]
           (w_app Example.fresh))
        (with_trace [EEngineScan "myapp_db_1"] Example.fresh)).
  { unfold scanned.
    rewrite (postStartScan_one 0 Example.db scan Example.fresh eq_refl Hscan).
    rewrite (scanThen_found 0 0 Example.db Example.db scan
               (with_trace _ Example.fresh) eq_refl eq_refl).
    unfold openMerge. set (ip := getIPAddress scan _).
    assert (Hip' : ip = PStr "10.0.0.5") by exact Hip.
    rewrite Hip'. reflexivity. }
  rewrite Hscanned. clear Hscanned scanned.
  set (w1 := with_app _ _).
  assert (Hprobe :
    step [0] [1] (AProbe 0) (init [0] w1)
    = Some {| st_world :=
                with_trace
                  (w_trace (st_world (init [0] w1))
                     ++ [EEngineDone (serviceRun (w_app Example.fresh) Example.db)
                           (Some Example.probe_output)])
                  (st_world (init [0] w1));
              st_probes := [Settled (Some ("db", [Example.endpoint]))];
              st_opens := [];
              st_phase := ProbingServices |}).
  { exact (step_probe_parsed [0] [1] (init [0] w1) 0 0 0
             (set_openMerge
                [ ("cluster", PStr "bespin"); ("fragment", PNull);
                  ("hostname", PStr "myapp.db.service._.lndo.site");
                  ("ip", PStr "10.0.0.5"); ("rel", PStr "db.internal");
                  ("service", PStr "db"); ("type", PStr "mysql:10") ]
                Example.db)
             Example.probe_output [[("host", JStr "x")]]
             eq_refl eq_refl eq_refl Hrun Hparse). }
  destruct (run [0] [1] [AProbe 0; ABarrier] (init [0] w1)) as [s|] eqn:E;
    rewrite run_cons, Hprobe in E; vm_compute in E; [|discriminate E].
  exists s, Example.endpoint. injection E as <-.
  split_and!; by vm_compute.
Qed.

End Payload.

Lemma open_payload_example_witness :
  @engine_scan Example.env "myapp_db_1"
    = Some (JObj [("myapp_default", JStr "10.0.0.5")])
  ∧ @getIPAddress Example.env (JObj [("myapp_default", JStr "10.0.0.5")])
      "myapp_default" = PStr "10.0.0.5"
  ∧ @engine_run Example.env (serviceRun (w_app Example.fresh) Example.db) 0
    = Some Example.probe_output
  ∧ @parseOpenData Example.env Example.probe_output
    = Some [[("host", JStr "x")]]
  ∧ ∃ s endpoint,
      @run Example.env [0] [1] [AProbe 0; ABarrier] (init [0] Example.scanned)
        = Some s
      ∧ st_opens s
        = [appRun (w_app Example.fresh) Example.web [("database", [endpoint])]]
      ∧ obj_get "ip" endpoint = Some (JStr "10.0.0.5")
      ∧ obj_get "type" endpoint = Some (JStr "mysql:10").
Proof.
  split_and!; try reflexivity.
  destruct (@open_payload_example Example.env
              (JObj [("myapp_default", JStr "10.0.0.5")])
              eq_refl eq_refl eq_refl eq_refl)
    as (s & endpoint & Hrun & _ & Hopens & _ & _ & Hip & _ & Htype).
  exists s, endpoint. split_and!; [exact Hrun | exact Hopens | exact Hip
                                  | exact Htype].
Defined.

(** ** The handlers, one by one *)

Ltac run_world :=
  cbv beta iota zeta delta
    [bind gets modify emit log update_app on ret throw mkdirp cache_get
     cache_set writeFileSync forEach platformsh update_platformsh
     with_app with_trace with_dirs with_cache with_files
     w_app w_cache w_dirs w_files w_now w_trace
     set_id set_configPath set_platformsh set_services
     app_id app_name app_root app_project app_compose app_recipe
     app_config_id app_services app_userConfRoot app_domain app_preLockfile
     app_configPath app_platformsh app_events app_warnings fst snd
     set_routes set_applications set_closestApp set_closestOpenCache
     set_relationships set_pshServices set_runConfig
     p_config p_domain p_id p_tokenCache p_tokens p_routes p_applications
     p_closestApp p_closestOpenCache p_relationships p_services p_runConfig
     addWarning].

(** [_.find] gives the first element that matches. *)
Lemma find_Some {A} (p : A → bool) (l : list A) (x : A) :
  lodash.find p l = Some x ↔
    ∃ i, l !! i = Some x ∧ p x = true
         ∧ ∀ j y, j < i → l !! j = Some y → p y = false.
Proof.
  induction l as [|y l IH]; simpl.
  - split; [done|]. by intros (i & Hi & _).
  - destruct (p y) eqn:Hy.
    + split.
      * intros [= <-]. exists 0. split_and!; try done. intros j z Hj. lia.
      * intros (i & Hi & Hx & Hfirst). destruct i as [|i]; [by simplify_eq/=|].
        rewrite (Hfirst 0 y) in Hy; [done | lia | done].
    + rewrite IH. split.
      * intros (i & Hi & Hx & Hfirst). exists (S i). split_and!; try done.
        intros [|j] z Hj Hz; simplify_eq/=; [done|].
        apply (Hfirst j); [lia | done].
      * intros (i & Hi & Hx & Hfirst). destruct i as [|i]; simplify_eq/=.
        { congruence. }
        exists i. split_and!; try done. intros j z Hj Hz.
        apply (Hfirst (S j)); [lia | done].
Qed.

Lemma find_None {A} (p : A → bool) (l : list A) :
  lodash.find p l = None ↔ Forall (λ x, p x = false) l.
Proof.
  induction l as [|y l IH]; simpl.
  - split; [constructor | done].
  - destruct (p y) eqn:Hy.
    + split; [done|]. intros [Hfalse _]%Forall_cons. congruence.
    + rewrite IH. split; [by constructor | by intros [_ ?]%Forall_cons].
Qed.

Lemma difference_nil (l values : list string) :
  lodash.difference l values = [] ↔ Forall (λ x, x ∈ values) l.
Proof.
  unfold lodash.difference. induction l as [|x l IH]; simpl.
  - split; [constructor | done].
  - rewrite filter_cons. destruct (decide (x ∉ values)) as [Hnin|Hin].
    + split; [done|]. by intros [? _]%Forall_cons.
    + rewrite IH. apply dec_stable in Hin.
      split; [by constructor | by intros [_ ?]%Forall_cons].
Qed.

Lemma elem_of_difference (x : string) (l values : list string) :
  x ∈ lodash.difference l values ↔ x ∈ l ∧ x ∉ values.
Proof. unfold lodash.difference. rewrite list_elem_of_filter. tauto. Qed.

Section Loading.

Context `{Collaborators}.

Lemma plugin_platformsh_spec (w : World) :
  app_recipe (w_app w) = Some "platformsh" →
  ∃ w' t,
    plugin w = (w', Ok tt)
    ∧ w_trace w' = w_trace w ++ t
    ∧ (configPath_of (w_app w) ∉ w_dirs w
       → EMkdirp (configPath_of (w_app w)) ∈ t)
    ∧ (∀ d, EMkdirp d ∈ t
         → d = configPath_of (w_app w) ∧ configPath_of (w_app w) ∉ w_dirs w)
    ∧ w_dirs w' = {[configPath_of (w_app w)]} ∪ w_dirs w
    ∧ w_cache w' = w_cache w ∧ w_files w' = w_files w
    ∧ app_events (w_app w') = app_events (w_app w) ++ plugin_handlers
    ∧ app_services (w_app w') = app_services (w_app w)
    ∧ app_configPath (w_app w') = Some (configPath_of (w_app w))
    ∧ app_id (w_app w') = default (app_id (w_app w)) (app_config_id (w_app w))
    ∧ app_platformsh (w_app w') =
        Some {| p_config := loadConfigFiles (app_root (w_app w));
                p_domain := app_name (w_app w) +:+ "." +:+ app_domain (w_app w);
                p_id := default (app_id (w_app w)) (app_config_id (w_app w));
                p_tokenCache := "platformsh.tokens";
                p_tokens :=
                  tokens_or_empty (w_cache w !! "platformsh.tokens");
                p_routes := None; p_applications := None;
                p_closestApp := None; p_closestOpenCache := None;
                p_relationships := None; p_services := None;
                p_runConfig := None |}.
Proof.
  intros Hrecipe.
  destruct w as [[i nm rt pj cmp rc ci sv ucr dm pl cfp ps ev wn] c d f n t0].
  simpl in *. subst.
  unfold plugin, configPath_of. unfold bind at 1, gets at 1.
  cbn [w_app app_recipe]. rewrite decide_True by done.
  run_world.
  destruct (decide (path_join [ucr; "config"; nm] ∈ d)) as [Hin|Hnin];
    run_world; rewrite <- ?app_assoc; do 2 eexists;
    (split; [reflexivity|]); (split; [reflexivity|]).
  - split_and!; try reflexivity.
    + done.
    + intros d' Hmk. simpl in Hmk. rewrite !elem_of_cons, elem_of_nil in Hmk.
      repeat (destruct Hmk as [Hmk|Hmk]; [discriminate Hmk|]). done.
    + symmetry. apply subseteq_union_1_L. by apply singleton_subseteq_l.
  - split_and!; try reflexivity.
    + intros _. by apply (list_elem_of_lookup_2 _ 3).
    + intros d' Hmk. simpl in Hmk. rewrite !elem_of_cons, elem_of_nil in Hmk.
      repeat (destruct Hmk as [Hmk|Hmk];
              [try discriminate Hmk; by injection Hmk as ->|]). done.
Qed.

(** X1.  On a [platformsh] recipe the exported function returns normally
    and registers its six handlers, [pre-init] first and the three
    [post-init] handlers last, behind the handlers the app already has; the
    cache, the files and [app.config.services] are left as they are. *)
Theorem plugin_registers_handlers (w : World) :
  app_recipe (w_app w) = Some "platformsh" →
  (plugin w).2 = Ok tt
  ∧ app_events (w_app (plugin w).1) = app_events (w_app w) ++ plugin_handlers
  ∧ w_cache (plugin w).1 = w_cache w
  ∧ w_files (plugin w).1 = w_files w
  ∧ app_services (w_app (plugin w).1) = app_services (w_app w).
Proof.
  intros Hrecipe.
  destruct (plugin_platformsh_spec w Hrecipe)
    as (w' & t & -> & _ & _ & _ & _ & Hcache & Hfiles & Hevents & Hsvc & _).
  by split_and!.
Qed.


(** X3.  On a [platformsh] recipe the id of the app becomes
    [config.config.id] when there is one, and [app.platformsh] starts with
    the loaded config files, the domain [<name>.<domain>], that id, the
    token list of the cache key [platformsh.tokens] (empty when the key is
    not set) and nothing parsed yet. *)
Theorem plugin_initial_platformsh (w : World) :
  app_recipe (w_app w) = Some "platformsh" →
  let id := default (app_id (w_app w)) (app_config_id (w_app w)) in
  app_id (w_app (plugin w).1) = id
  ∧ ∃ p, app_platformsh (w_app (plugin w).1) = Some p
         ∧ p_config p = loadConfigFiles (app_root (w_app w))
         ∧ p_domain p = app_name (w_app w) +:+ "." +:+ app_domain (w_app w)
         ∧ p_id p = id
         ∧ p_tokenCache p = "platformsh.tokens"
         ∧ p_tokens p = tokens_or_empty (w_cache w !! "platformsh.tokens")
         ∧ (w_cache w !! "platformsh.tokens" = None → p_tokens p = [])
         ∧ p_applications p = None ∧ p_closestApp p = None
         ∧ p_services p = None ∧ p_runConfig p = None.
Proof.
  intros Hrecipe id.
  destruct (plugin_platformsh_spec w Hrecipe)
    as (w' & t & -> & _ & _ & _ & _ & _ & _ & _ & _ & _ & Hid & Hp).
  split; [done|]. eexists. split; [exact Hp|]. simpl.
  split_and!; try done. by intros ->.
Qed.

End Loading.

Lemma plugin_registers_handlers_witness :
  app_recipe (w_app Example.fresh) = Some "platformsh"
  ∧ app_events (w_app (@plugin Example.env Example.fresh).1) = plugin_handlers.
Proof.
  split; [reflexivity|].
  exact (proj1 (proj2 (@plugin_registers_handlers Example.env Example.fresh
                         eq_refl))).
Defined.


Lemma plugin_initial_platformsh_witness :
  app_recipe (w_app Example.fresh) = Some "platformsh"
  ∧ app_id (w_app (@plugin Example.env Example.fresh).1) = "abc123".
Proof.
  split; [reflexivity|].
  exact (proj1 (@plugin_initial_platformsh Example.env Example.fresh eq_refl)).
Defined.

Section Parsing.

Context `{Collaborators}.

Lemma preInit_spec (w : World) (p : Platformsh) :
  app_platformsh (w_app w) = Some p →
  ∃ w',
    preInit w =
      (w', match lodash.find is_closest (parsed_applications p) with
           | Some _ => Ok tt
           | None =>
               Throw (TypeError "Cannot read property 'name' of undefined")
           end)
    ∧ w_cache w' = w_cache w ∧ w_files w' = w_files w
    ∧ w_dirs w' = w_dirs w ∧ w_now w' = w_now w
    ∧ app_events (w_app w') =
        app_events (w_app w) ++ [("post-start", Some 9, HUnsupported)]
    ∧ app_services (w_app w') = app_services (w_app w)
    ∧ app_warnings (w_app w') = app_warnings (w_app w)
    ∧ app_name (w_app w') = app_name (w_app w)
    ∧ app_preLockfile (w_app w') = app_preLockfile (w_app w)
    ∧ ∀ closest,
        lodash.find is_closest (parsed_applications p) = Some closest →
        w_app w' =
          set_platformsh
            (set_runConfig (buildRunConfig (parsed_app p w closest))
               (parsed_platformsh p (w_app w) (w_cache w) closest))
            (parsed_app p w closest).
Proof.
  intros Hp.
  unfold parsed_app, parsed_platformsh, closestOpenCacheKey, is_closest,
    parsed_applications.
  destruct w as [[i nm rt pj cmp rc ci sv ucr dm pl cfp ps ev wn] c d f n t0].
  simpl in *. subst. unfold preInit. run_world.
  destruct (lodash.isEmpty _); run_world;
    destruct (lodash.find _ _) as [closest|]; run_world;
    eexists; (split; [reflexivity|]); split_and!; try reflexivity;
    intros closest' [= <-]; reflexivity || done.
Qed.

Lemma find_closest_Exists (l : list Application) :
  is_Some (lodash.find is_closest l)
  ↔ Exists (λ a, a_configFile a = findClosestApplication) l.
Proof.
  rewrite Exists_exists. split.
  - intros [x (i & Hi & Hx & _)%find_Some]. exists x.
    split; [by eapply list_elem_of_lookup_2|].
    by apply bool_decide_eq_true in Hx.
  - intros (x & Hin & Hx).
    destruct (lodash.find is_closest l) as [y|] eqn:Hfind; [by eexists|].
    apply find_None in Hfind. rewrite Forall_forall in Hfind.
    specialize (Hfind x Hin). unfold is_closest in Hfind.
    by rewrite bool_decide_eq_false in Hfind.
Qed.

(** X4.  Whether it ends well or not, the [pre-init] handler leaves the
    cache, the files and the directories alone, registers one handler (the
    [post-start] handler of priority 9) behind the ones there are, and
    touches neither [app.config.services] nor the warnings.  It returns
    normally exactly when a parsed application has the closest application
    file as its [configFile]; otherwise it ends with the [TypeError] of
    line 82. *)
Theorem preInit_frame (w : World) (p : Platformsh) :
  app_platformsh (w_app w) = Some p →
  w_cache (preInit w).1 = w_cache w
  ∧ w_files (preInit w).1 = w_files w
  ∧ w_dirs (preInit w).1 = w_dirs w
  ∧ app_events (w_app (preInit w).1) =
      app_events (w_app w) ++ [("post-start", Some 9, HUnsupported)]
  ∧ app_services (w_app (preInit w).1) = app_services (w_app w)
  ∧ app_warnings (w_app (preInit w).1) = app_warnings (w_app w)
  ∧ ((preInit w).2 = Ok tt
     ↔ Exists (λ a, a_configFile a = findClosestApplication)
         (parsed_applications p))
  ∧ ((preInit w).2 ≠ Ok tt →
     (preInit w).2
     = Throw (TypeError "Cannot read property 'name' of undefined")).
Proof.
  intros Hp.
  destruct (preInit_spec w p Hp)
    as (w' & -> & Hcache & Hfiles & Hdirs & _ & Hev & Hsvc & Hwarn & _).
  simpl. split_and!; try done.
  - rewrite <- find_closest_Exists.
    destruct (lodash.find _ _).
    + split; [intros _; by eexists | done].
    + split; [done | by intros [? ?]].
  - by destruct (lodash.find _ _).
Qed.

(** X5.  When the application at index [i] of the parsed applications is
    the first whose [configFile] is the closest application file, the
    handler returns normally with that application as
    [app.platformsh.closestApp]; [closestOpenCache] is what the cache holds
    under [<app>.<closest>.open.cache] ([undefined] when nothing is cached),
    the relationships are parsed with it, the services with the
    relationships, and the run config is built from the app as it is then. *)
Theorem preInit_closest_application (w : World) (p : Platformsh) (i : nat)
    (closest : Application) :
  app_platformsh (w_app w) = Some p →
  parsed_applications p !! i = Some closest →
  a_configFile closest = findClosestApplication →
  (∀ j y, j < i → parsed_applications p !! j = Some y →
          a_configFile y ≠ findClosestApplication) →
  let seed := w_cache w !! closestOpenCacheKey (w_app w) closest in
  let relationships :=
    pshconf_parseRelationships (c_applications (p_config p)) seed in
  (preInit w).2 = Ok tt
  ∧ ∃ p', app_platformsh (w_app (preInit w).1) = Some p'
          ∧ p_closestApp p' = Some closest
          ∧ p_closestOpenCache p' = seed
          ∧ p_relationships p' = Some relationships
          ∧ p_services p'
            = Some (parseServices (c_services (p_config p)) relationships)
          ∧ p_runConfig p' = Some (buildRunConfig (parsed_app p w closest)).
Proof.
  intros Hp Hi Hclosest Hfirst seed relationships.
  assert (Hfind : lodash.find is_closest (parsed_applications p)
                  = Some closest).
  { apply find_Some. exists i. split_and!; try done.
    - by apply bool_decide_eq_true.
    - intros j y Hj Hy. apply bool_decide_eq_false. by apply (Hfirst j). }
  destruct (preInit_spec w p Hp) as (w' & -> & _ & _ & _ & _ & _ & _ & _ & _
                                     & _ & Happ).
  rewrite Hfind. simpl. split; [done|].
  rewrite (Happ closest Hfind). eexists. split; [reflexivity|].
  by split_and!.
Qed.

(** X6.  What the OPEN handler caches for an application server is what
    the next [pre-init] takes as [closestOpenCache], when that server is the
    closest application: the key written at line 231 is the key read at
    line 82. *)
Theorem open_cache_seeds_preInit (w : World) (p : Platformsh)
    (serviceData : gmap string (list obj)) (appserver : nat) (a : Service)
    (closest : Application) :
  app_platformsh (w_app w) = Some p →
  app_services (w_app w) !! appserver = Some a →
  lodash.find is_closest (parsed_applications p) = Some closest →
  a_name closest = svc_name a →
  let w1 := (openAppserver serviceData appserver w).1 in
  ∃ p', app_platformsh (w_app (preInit w1).1) = Some p'
        ∧ p_closestOpenCache p' = Some (COpen (payload_of serviceData a)).
Proof.
  intros Hp Ha Hfind Hname w1. subst w1.
  rewrite openAppserver_spec, Ha. simpl.
  set (w1 := with_trace _ _).
  assert (Hp1 : app_platformsh (w_app w1) = Some p) by done.
  destruct (preInit_spec w1 p Hp1) as (w' & -> & _ & _ & _ & _ & _ & _ & _ & _
                                       & _ & Happ).
  simpl. rewrite (Happ closest Hfind). eexists. split; [reflexivity|].
  simpl. unfold closestOpenCacheKey, openCacheKey. rewrite Hname.
  apply lookup_insert_eq.
Qed.

End Parsing.

Lemma preInit_frame_witness :
  app_platformsh (w_app Example.loaded) = Some Example.loaded_psh
  ∧ w_cache (@preInit Example.env Example.loaded).1 = w_cache Example.loaded.
Proof.
  split; [reflexivity|].
  exact (proj1 (@preInit_frame Example.env Example.loaded Example.loaded_psh
                  eq_refl)).
Defined.

Lemma preInit_closest_application_witness :
  app_platformsh (w_app Scenario.loaded) = Some Scenario.psh
  ∧ @parsed_applications Example.env Scenario.psh !! 0 = Some Scenario.closest
  ∧ (@preInit Example.env Scenario.loaded).2 = Ok tt.
Proof.
  split; [reflexivity | split; [reflexivity|]].
  refine (proj1 (@preInit_closest_application Example.env Scenario.loaded
                   Scenario.psh 0 Scenario.closest eq_refl eq_refl eq_refl _)).
  intros j y Hj. lia.
Defined.

Lemma open_cache_seeds_preInit_witness :
  app_platformsh (w_app Scenario.loaded) = Some Scenario.psh
  ∧ app_services (w_app Scenario.loaded) !! 1 = Some Example.web
  ∧ ∃ p',
      app_platformsh
        (w_app (@preInit Example.env
                  (openAppserver ∅ 1 Scenario.loaded).1).1)
      = Some p'
      ∧ p_closestOpenCache p' = Some (COpen (payload_of ∅ Example.web)).
Proof.
  split; [reflexivity | split; [reflexivity|]].
  exact (@open_cache_seeds_preInit Example.env Scenario.loaded Scenario.psh
           ∅ 1 Example.web Scenario.closest eq_refl eq_refl eq_refl eq_refl).
Defined.

Section Warning.

Context `{Collaborators}.

Lemma unsupported_spec (w : World) (p : Platformsh) :
  app_platformsh (w_app w) = Some p →
  unsupported w =
    if bool_decide (unsupported_names p = []) then (w, Ok tt)
    else
      let x :=
        unsupportedServices (join ", " (Some <$> unsupported_names p)) in
      (with_trace (w_trace w ++ [EWarning x]) (with_app (warned x (w_app w)) w),
       Ok tt).
Proof.
  intros Hp.
  destruct w as [[i nm rt pj cmp rc ci sv ucr dm pl cfp ps ev wn] c d f n t0].
  simpl in *. subst. unfold unsupported, unsupported_names. run_world.
  by destruct (bool_decide _).
Qed.

(** X7.  The [post-start] handler of priority 9 never throws.  When
    [getLandoServices] keeps a service of every name in
    [app.platformsh.services] (or the services are not parsed yet) it does
    nothing; otherwise it adds one warning, made from the names that are
    left out, in their order and joined by a comma and a space, and changes
    nothing else of the app. *)
Theorem unsupported_warns_of_missing_services (w : World) (p : Platformsh) :
  app_platformsh (w_app w) = Some p →
  let services := default [] (p_services p) in
  let supported := ps_name <$> getLandoServices services in
  (unsupported w).2 = Ok tt
  ∧ (Forall (λ s, ps_name s ∈ supported) services → (unsupported w).1 = w)
  ∧ (¬ Forall (λ s, ps_name s ∈ supported) services →
     (unsupported w).1 =
       let x :=
         unsupportedServices (join ", " (Some <$> unsupported_names p)) in
       with_trace (w_trace w ++ [EWarning x])
         (with_app (warned x (w_app w)) w))
  ∧ (∀ x, x ∈ unsupported_names p
          ↔ x ∈ ps_name <$> services ∧ x ∉ supported)
  ∧ (p_services p = None → (unsupported w).1 = w).
Proof.
  intros Hp services supported.
  assert (Hnil : unsupported_names p = []
                 ↔ Forall (λ s, ps_name s ∈ supported) services).
  { unfold unsupported_names. rewrite difference_nil.
    fold services supported. by rewrite Forall_fmap. }
  rewrite (unsupported_spec w p Hp). split_and!.
  - by destruct (bool_decide _).
  - intros Hall. by rewrite bool_decide_eq_true_2 by by apply Hnil.
  - intros Hmissing. rewrite bool_decide_eq_false_2; [done|].
    intros Hempty. by apply Hmissing, Hnil.
  - intros x. apply elem_of_difference.
  - intros Hnone. rewrite bool_decide_eq_true_2; [done|].
    apply Hnil. unfold services. rewrite Hnone. constructor.
Qed.

End Warning.

Lemma unsupported_warns_of_missing_services_witness :
  app_platformsh (w_app Example.loaded) = Some Example.loaded_psh
  ∧ (@unsupported Example.env Example.loaded).2 = Ok tt.
Proof.
  split; [reflexivity|].
  exact (proj1 (@unsupported_warns_of_missing_services Example.env
                  Example.loaded Example.loaded_psh eq_refl)).
Defined.

Lemma length_append (s1 s2 : string) :
  String.length (s1 +:+ s2) = String.length s1 + String.length s2.
Proof. induction s1 as [|c s1 IH]; simpl; [done | by rewrite IH]. Qed.

(** The key of the app's metadata is never the key of the tokens. *)
Lemma metaCacheKey_not_tokenCache (app : App) :
  metaCacheKey app ≠ "platformsh.tokens".
Proof.
  unfold metaCacheKey. intros Heq.
  assert (Hlen : String.length (app_name app) = 6).
  { apply (f_equal String.length) in Heq. rewrite length_append in Heq.
    simpl in Heq. lia. }
  destruct (app_name app) as [|c1 [|c2 [|c3 [|c4 [|c5 [|c6 [|c7 s]]]]]]];
    simpl in Hlen; try discriminate Hlen.
  simpl in Heq. discriminate Heq.
Qed.

Section AfterCommand.

Context `{Collaborators}.

Lemma postCommand_spec (w : World) (p : Platformsh) (a mail : string) :
  app_platformsh (w_app w) = Some p →
  a ≠ "" →
  getAccountInfo a = Some mail →
  let t := fresh_token a mail (w_now w) in
  let tokens :=
    CTokens (utils.sortTokens (tokens_or_empty (w_cache w !! p_tokenCache p))
               [t]) in
  let cache1 := <[p_tokenCache p := tokens]> (w_cache w) in
  let meta :=
    CMeta (lodash.merge (meta_or_empty (cache1 !! metaCacheKey (w_app w)))
             (token_fields t)) in
  postCommand (Some a) w =
    (with_trace
       (w_trace w ++ [ECacheSet (p_tokenCache p) tokens true;
                      ECacheSet (metaCacheKey (w_app w)) meta true])
       (with_cache (<[metaCacheKey (w_app w) := meta]> cache1) w), Ok tt).
Proof.
  intros Hp Ha Hmail. unfold postCommand, metaCacheKey.
  destruct (String.eqb_spec a "") as [|_]; [done|]. rewrite Hmail.
  destruct w as [[i nm rt pj cmp rc ci sv ucr dm pl cfp ps ev wn] c d f n t0].
  simpl in *. subst. run_world. rewrite <- app_assoc. reflexivity.
Qed.

(** X8.  The [post-pull] and [post-push] handler changes nothing, neither
    cache nor log, unless the command was given a token and the token was
    accepted: without [answers.auth], or with the empty string, it returns
    at once; with a token that [getAccountInfo] rejects, the handler is
    rejected and the caches are as they were. *)
Theorem postCommand_needs_valid_token (w : World) :
  postCommand None w = (w, Ok tt)
  ∧ postCommand (Some "") w = (w, Ok tt)
  ∧ ∀ a, getAccountInfo a = None →
         (postCommand (Some a) w).1 = w
         ∧ (a ≠ "" →
            (postCommand (Some a) w).2 = Throw (Rejection "getAccountInfo")).
Proof.
  split_and!; try done.
  intros a Hrejected. unfold postCommand.
  destruct (String.eqb_spec a "") as [|Hne]; [done|]. by rewrite Hrejected.
Qed.

(** X9.  With a token that is accepted, the handler returns normally and
    the metadata of the app, under [<app>.meta.cache], has the token, the
    mail of the account and the time in whole seconds; every other key of
    the metadata that was cached is kept.  Two keys of the cache are
    written, the token list and the metadata, both persistently; every
    other key, the files, the directories and [app] are as they were. *)
Theorem postCommand_updates_metadata (w : World) (p : Platformsh)
    (a mail : string) :
  app_platformsh (w_app w) = Some p →
  p_tokenCache p = "platformsh.tokens" →
  a ≠ "" →
  getAccountInfo a = Some mail →
  let w' := (postCommand (Some a) w).1 in
  let old := meta_or_empty (w_cache w !! metaCacheKey (w_app w)) in
  (postCommand (Some a) w).2 = Ok tt
  ∧ (∃ meta,
       w_cache w' !! metaCacheKey (w_app w) = Some (CMeta meta)
       ∧ obj_get "token" meta = Some (JStr a)
       ∧ obj_get "email" meta = Some (JStr mail)
       ∧ obj_get "date" meta = Some (JNum (w_now w `quot` 1000))
       ∧ (∀ k, k ≠ "token" → k ≠ "email" → k ≠ "date" →
               obj_get k meta = obj_get k old)
       ∧ ∃ tokens,
           w_trace w' =
             w_trace w ++ [ECacheSet "platformsh.tokens" tokens true;
                           ECacheSet (metaCacheKey (w_app w)) (CMeta meta)
                             true])
  ∧ (∀ key, key ≠ "platformsh.tokens" → key ≠ metaCacheKey (w_app w) →
            w_cache w' !! key = w_cache w !! key)
  ∧ w_files w' = w_files w ∧ w_dirs w' = w_dirs w ∧ w_app w' = w_app w.
Proof.
  intros Hp Hkey Ha Hmail w' old. subst w'.
  rewrite (postCommand_spec w p a mail Hp Ha Hmail), Hkey.
  assert (Hne := metaCacheKey_not_tokenCache (w_app w)).
  cbn [fst snd w_cache w_files w_dirs w_app w_trace with_trace with_cache].
  rewrite (lookup_insert_ne (w_cache w) "platformsh.tokens"
             (metaCacheKey (w_app w))) by (by apply not_eq_sym).
  fold old.
  split_and!; try done.
  - eexists. split; [apply lookup_insert_eq|]. split_and!.
    + apply (merge_get "token" (PStr a) old []); [done|].
      cbn. rewrite !elem_of_cons, elem_of_nil.
      intros [?|[?|[]]]; discriminate.
    + apply (merge_get "email" (PStr mail) old [("token", PStr a)]); [done|].
      cbn. rewrite !elem_of_cons, elem_of_nil. intros [?|[]]; discriminate.
    + apply (merge_get "date" (PNum _) old
               [("token", PStr a); ("email", PStr mail)]); [done|].
      cbn. apply not_elem_of_nil.
    + intros k Htoken Hemail Hdate. apply merge_get_other.
      cbn. rewrite !elem_of_cons, elem_of_nil. intros [?|[?|[?|[]]]]; done.
    + eexists. reflexivity.
  - intros key Hk1 Hk2. by rewrite !lookup_insert_ne.
Qed.

End AfterCommand.

Lemma postCommand_updates_metadata_witness :
  app_platformsh (w_app Example.loaded) = Some Example.loaded_psh
  ∧ "tok" ≠ ""
  ∧ @getAccountInfo Example.env "tok" = Some "a@x.com"
  ∧ (@postCommand Example.env (Some "tok") Example.loaded).2 = Ok tt.
Proof.
  assert (Hne : "tok" ≠ "") by discriminate.
  split; [reflexivity | split; [exact Hne | split; [reflexivity|]]].
  exact (proj1 (@postCommand_updates_metadata Example.env Example.loaded
                  Example.loaded_psh "tok" "a@x.com" eq_refl eq_refl Hne
                  eq_refl)).
Defined.

(** *** [dump_files] *)

Section Dump.

Context `{Collaborators}.

Lemma dump_files_snoc (l : list RunConfig) (rc : RunConfig)
    (files : gmap string string) :
  dump_files (l ++ [rc]) files
  = <[rc_file rc := stringify (rc_data rc)]> (dump_files l files).
Proof. unfold dump_files. by rewrite foldl_app. Qed.

Lemma dump_files_other (l : list RunConfig) (files : gmap string string)
    (f : string) :
  f ∉ rc_file <$> l → dump_files l files !! f = files !! f.
Proof.
  induction l as [|rc l IH] using rev_ind; intros Hf; [done|].
  rewrite fmap_app, not_elem_of_app in Hf. destruct Hf as [Hl Hrc].
  rewrite dump_files_snoc, lookup_insert_ne; [by apply IH|].
  intros Heq. apply Hrc. rewrite <- Heq. simpl. apply list_elem_of_here.
Qed.

Lemma dump_files_last (l1 l2 : list RunConfig) (rc : RunConfig)
    (files : gmap string string) :
  rc_file rc ∉ rc_file <$> l2 →
  dump_files (l1 ++ rc :: l2) files !! rc_file rc
  = Some (stringify (rc_data rc)).
Proof.
  intros Hlast. unfold dump_files. rewrite foldl_app. simpl.
  fold (dump_files l2
          (<[rc_file rc := stringify (rc_data rc)]>
             (foldl (λ fs service,
                       <[rc_file service := stringify (rc_data service)]> fs)
                    files l1))).
  rewrite dump_files_other by done. apply lookup_insert_eq.
Qed.

Lemma last_occurrence (l : list RunConfig) (f : string) :
  f ∈ rc_file <$> l →
  ∃ l1 rc l2, l = l1 ++ rc :: l2 ∧ rc_file rc = f ∧ f ∉ rc_file <$> l2.
Proof.
  induction l as [|rc l IH]; intros Hin; [by apply elem_of_nil in Hin|].
  destruct (decide (f ∈ rc_file <$> l)) as [Hl|Hl].
  - destruct (IH Hl) as (l1 & rc' & l2 & -> & Hrc & Hlast).
    by exists (rc :: l1), rc', l2.
  - rewrite fmap_cons in Hin. apply elem_of_cons in Hin as [->|Hin]; [|done].
    by exists [], rc, l.
Qed.

Lemma dump_files_twice (l : list RunConfig) (files : gmap string string) :
  dump_files l (dump_files l files) = dump_files l files.
Proof.
  apply map_eq. intros f.
  destruct (decide (f ∈ rc_file <$> l)) as [Hin|Hnin].
  - destruct (last_occurrence l f Hin) as (l1 & rc & l2 & -> & <- & Hlast).
    by rewrite !dump_files_last.
  - by rewrite dump_files_other.
Qed.

Lemma preStartRunConfig_spec (w : World) (p : Platformsh) :
  app_platformsh (w_app w) = Some p →
  ∃ w', preStartRunConfig w = (w', Ok tt)
        ∧ w_app w' = w_app w ∧ w_cache w' = w_cache w
        ∧ w_dirs w' = w_dirs w
        ∧ w_files w' =
            if cache_truthy (w_cache w !! app_preLockfile (w_app w))
            then w_files w
            else dump_files (default [] (p_runConfig p)) (w_files w).
Proof.
  intros Hp.
  unfold preStartRunConfig, bind, gets, cache_get, platformsh. simpl.
  destruct (cache_truthy _).
  - by exists w.
  - rewrite Hp.
    destruct (forEach_dumpRunConfig (default [] (p_runConfig p)) w)
      as (w' & Hrun & Hfiles & _ & Happ & Hcache & Hdirs).
    by exists w'.
Qed.

(** X10.  The [pre-start] handler of priority 1 never throws and changes
    nothing but files: the cache, the directories and [app] are as they
    were, and so is every file that no element of the run config names.
    On a first start a file that is named holds the data of the last
    element that names it: a later element overwrites an earlier one. *)
Theorem preStart_last_write_wins (w : World) (p : Platformsh) :
  app_platformsh (w_app w) = Some p →
  let w' := (preStartRunConfig w).1 in
  let runConfig := default [] (p_runConfig p) in
  (preStartRunConfig w).2 = Ok tt
  ∧ w_app w' = w_app w ∧ w_cache w' = w_cache w ∧ w_dirs w' = w_dirs w
  ∧ (∀ f, f ∉ rc_file <$> runConfig → w_files w' !! f = w_files w !! f)
  ∧ (cache_truthy (w_cache w !! app_preLockfile (w_app w)) = false →
     ∀ l1 rc l2,
       runConfig = l1 ++ rc :: l2 → rc_file rc ∉ rc_file <$> l2 →
       w_files w' !! rc_file rc = Some (stringify (rc_data rc))).
Proof.
  intros Hp w' runConfig. subst w'.
  destruct (preStartRunConfig_spec w p Hp)
    as (w' & -> & Happ & Hcache & Hdirs & Hfiles).
  simpl. split_and!; try done.
  - intros f Hf. rewrite Hfiles.
    destruct (cache_truthy _); [done | by apply dump_files_other].
  - intros Hfirst l1 rc l2 Heq Hlast. rewrite Hfiles, Hfirst.
    fold runConfig. rewrite Heq. by apply dump_files_last.
Qed.

(** X11.  Running the [pre-start] handler a second time changes no file:
    what the second run writes is what the first has written. *)
Theorem preStart_twice (w : World) (p : Platformsh) :
  app_platformsh (w_app w) = Some p →
  w_files (preStartRunConfig (preStartRunConfig w).1).1
  = w_files (preStartRunConfig w).1.
Proof.
  intros Hp.
  destruct (preStartRunConfig_spec w p Hp)
    as (w1 & -> & Happ & Hcache & Hdirs & Hfiles).
  simpl.
  assert (Hp1 : app_platformsh (w_app w1) = Some p) by by rewrite Happ.
  destruct (preStartRunConfig_spec w1 p Hp1)
    as (w2 & -> & _ & _ & _ & Hfiles2).
  simpl. rewrite Hfiles2, Hcache, Happ, Hfiles.
  destruct (cache_truthy _); [done | apply dump_files_twice].
Qed.

(** X12.  A first start after a [pre-init] that went well writes the run
    config that [pre-init] built: [pre-init] leaves the cache alone, so the
    start marker is still missing, and the files are those of
    [buildRunConfig] for the app as it was parsed. *)
Theorem first_start_dumps_built_config (w : World) (p : Platformsh)
    (closest : Application) :
  app_platformsh (w_app w) = Some p →
  lodash.find is_closest (parsed_applications p) = Some closest →
  cache_truthy (w_cache w !! app_preLockfile (w_app w)) = false →
  (preInit w).2 = Ok tt
  ∧ (preStartRunConfig (preInit w).1).2 = Ok tt
  ∧ w_files (preStartRunConfig (preInit w).1).1
    = dump_files (buildRunConfig (parsed_app p w closest)) (w_files w).
Proof.
  intros Hp Hfind Hfirst.
  destruct (preInit_spec w p Hp)
    as (w1 & -> & Hcache & Hfiles & _ & _ & _ & _ & _ & _ & Hlock & Happ).
  rewrite Hfind. simpl. split; [done|].
  specialize (Happ closest Hfind).
  assert (Hp1 : app_platformsh (w_app w1)
                = Some (set_runConfig (buildRunConfig (parsed_app p w closest))
                          (parsed_platformsh p (w_app w) (w_cache w) closest)))
    by by rewrite Happ.
  destruct (preStartRunConfig_spec w1 _ Hp1)
    as (w2 & -> & _ & _ & _ & Hfiles2).
  simpl. split; [done|].
  by rewrite Hfiles2, Hcache, Hlock, Hfirst, Hfiles.
Qed.

End Dump.

Lemma preStart_last_write_wins_witness :
  app_platformsh (w_app Example.first_start)
    = Some (Example.configured Example.loaded_psh)
  ∧ w_cache (@preStartRunConfig Example.env Example.first_start).1
    = w_cache Example.first_start.
Proof.
  split; [reflexivity|].
  exact (proj1 (proj2 (proj2 (@preStart_last_write_wins Example.env
                                Example.first_start _ eq_refl)))).
Defined.

Lemma preStart_twice_witness :
  app_platformsh (w_app Example.first_start)
    = Some (Example.configured Example.loaded_psh)
  ∧ w_files (@preStartRunConfig Example.env
               (@preStartRunConfig Example.env Example.first_start).1).1
    = w_files (@preStartRunConfig Example.env Example.first_start).1.
Proof.
  split; [reflexivity|].
  exact (@preStart_twice Example.env Example.first_start _ eq_refl).
Defined.

Lemma first_start_dumps_built_config_witness :
  app_platformsh (w_app Scenario.loaded) = Some Scenario.psh
  ∧ lodash.find (@is_closest Example.env)
      (@parsed_applications Example.env Scenario.psh) = Some Scenario.closest
  ∧ w_files (@preStartRunConfig Example.env
               (@preInit Example.env Scenario.loaded).1).1
      !! "/conf/web.json" = Some "{}".
Proof.
  split; [reflexivity | split; [reflexivity|]].
  rewrite (proj2 (proj2 (@first_start_dumps_built_config Example.env
                           Scenario.loaded Scenario.psh Scenario.closest
                           eq_refl eq_refl eq_refl))).
  reflexivity.
Defined.

(** ** The scans *)

Lemma without_openMerge_set (m : list (string * prim)) (s : Service) :
  without_openMerge (set_openMerge m s) = without_openMerge s.
Proof. reflexivity. Qed.

Lemma without_openMerge_name (l l' : list Service) :
  without_openMerge <$> l' = without_openMerge <$> l →
  svc_name <$> l' = svc_name <$> l.
Proof.
  intros Heq.
  change (svc_name <$> l') with ((svc_name ∘ without_openMerge) <$> l').
  change (svc_name <$> l) with ((svc_name ∘ without_openMerge) <$> l).
  by rewrite !list_fmap_compose, Heq.
Qed.

Lemma scan_ids_ext (app app' : App) (services : list nat) :
  app_project app' = app_project app →
  svc_name <$> app_services app' = svc_name <$> app_services app →
  scan_ids app' services = scan_ids app services.
Proof.
  intros Hproject Hnames. unfold scan_ids.
  induction services as [|service services IH]; [done|]. csimpl.
  rewrite IH.
  assert (Hlookup : svc_name <$> app_services app' !! service
                    = svc_name <$> app_services app !! service)
    by by rewrite <- !list_lookup_fmap, Hnames.
  unfold containerId. rewrite Hproject.
  destruct (app_services app' !! service) as [s'|],
    (app_services app !! service) as [s|]; simplify_eq/=; try done.
  by rewrite Hlookup.
Qed.

Lemma unique_name_index (l : list Service) (i j : nat) (x y : Service) :
  NoDup (svc_name <$> l) → l !! i = Some x → l !! j = Some y →
  svc_name x = svc_name y → i = j.
Proof.
  intros Hnodup Hi Hj Hname.
  apply (NoDup_lookup (svc_name <$> l) i j (svc_name x)); [done|..].
  - by rewrite list_lookup_fmap, Hi.
  - by rewrite list_lookup_fmap, Hj, Hname.
Qed.

Section Scanning.

Context `{Collaborators}.

Lemma scanThen_spec (w : World) (service : nat) (svc : Service)
    (data : jsval) :
  app_services (w_app w) !! service = Some svc →
  ∃ i serviceConfig,
    (i ≤ service)%nat
    ∧ app_services (w_app w) !! i = Some serviceConfig
    ∧ svc_name serviceConfig = svc_name svc
    ∧ (∀ j y, j < i → app_services (w_app w) !! j = Some y →
              svc_name y ≠ svc_name svc)
    ∧ scanThen service data w =
        (with_app
           (set_services
              (<[i := set_openMerge (openMerge (w_app w) serviceConfig data)
                        serviceConfig]> (app_services (w_app w)))
              (w_app w)) w, Ok tt).
Proof.
  intros Hsvc.
  destruct (list_find_elem_of (λ c, svc_name c = svc_name svc)
              (app_services (w_app w)) svc) as [[i cfg] Hfind];
    [by eapply list_elem_of_lookup_2 | done |].
  pose proof Hfind as Hfound.
  apply list_find_Some in Hfound as (Hi & Hname & Hfirst).
  exists i, cfg. split_and!; try done.
  - destruct (decide (i ≤ service)%nat) as [|Hlt]; [done|].
    destruct (Hfirst service svc); [done | lia | done].
  - intros j y Hj Hy. by apply (Hfirst j).
  - unfold scanThen, bind, deref, gets. rewrite Hsvc. simpl.
    by rewrite Hfind.
Qed.

Lemma scan_result_again (app app' : App) (svc : Service) :
  app_name app' = app_name app → app_project app' = app_project app →
  scan_result app' (scan_result app svc) = scan_result app svc.
Proof.
  intros Hname Hproject. unfold scan_result, containerId.
  destruct (engine_scan (app_project app +:+ "_" +:+ svc_name svc +:+ "_1"))
    as [data|] eqn:Hscan; simpl; rewrite Hproject, Hscan; [|done].
  unfold openMerge, set_openMerge. simpl. by rewrite Hname, Hproject.
Qed.

Lemma postStartScan_spec (services : list nat) (w : World) :
  (∀ service, service ∈ services →
              is_Some (app_services (w_app w) !! service)) →
  ∃ l' r,
    postStartScan services w =
      (with_trace (w_trace w ++ (EEngineScan <$> scan_ids (w_app w) services))
         (with_app (set_services l' (w_app w)) w), r)
    ∧ without_openMerge <$> l' = without_openMerge <$> app_services (w_app w)
    ∧ (r = Ok tt
       ↔ Forall (λ id, is_Some (engine_scan id)) (scan_ids (w_app w) services))
    ∧ (NoDup (svc_name <$> app_services (w_app w)) →
       ∀ j, l' !! j =
              (λ svc, if decide (j ∈ services)
                      then scan_result (w_app w) svc else svc)
                <$> app_services (w_app w) !! j).
Proof.
  revert w. induction services as [|service rest IH]; intros w Hvalid.
  - exists (app_services (w_app w)), (Ok tt). split_and!; try done.
    + destruct w as [[] ? ? ? ? ?]. simpl. by rewrite app_nil_r.
    + intros _ j. destruct (_ !! j) as [svc|]; [|done].
      destruct (decide (j ∈ [])) as [Hin|Hnin];
        [by apply elem_of_nil in Hin | done].
  - destruct (Hvalid service) as [svc Hsvc]; [apply list_elem_of_here|].
    assert (Hids : scan_ids (w_app w) (service :: rest)
                   = containerId (w_app w) svc :: scan_ids (w_app w) rest).
    { unfold scan_ids. simpl. by rewrite Hsvc. }
    destruct (engine_scan (containerId (w_app w) svc)) as [data|] eqn:Hscan.
    + set (wa := with_trace
                   (w_trace w ++ [EEngineScan (containerId (w_app w) svc)]) w).
      destruct (scanThen_spec wa service svc data Hsvc)
        as (i & cfg & Hle & Hi & Hname & Hfirst & Hthen).
      change (w_app wa) with (w_app w) in Hi, Hfirst, Hthen.
      set (l1 := <[i := set_openMerge (openMerge (w_app w) cfg data) cfg]>
                   (app_services (w_app w))) in Hthen.
      set (wb := with_app (set_services l1 (w_app w)) wa) in Hthen.
      assert (Hl1 : without_openMerge <$> l1
                    = without_openMerge <$> app_services (w_app w)).
      { unfold l1. rewrite list_fmap_insert, without_openMerge_set.
        apply list_insert_id. by rewrite list_lookup_fmap, Hi. }
      destruct (IH wb) as (l' & r & Hrest & Hl' & Hr & Hlookup).
      { intros s Hs. simpl.
        apply lookup_lt_is_Some.
        rewrite <- (length_fmap without_openMerge), Hl1, length_fmap.
        apply lookup_lt_is_Some, Hvalid. by apply list_elem_of_further. }
      assert (Hidsb : scan_ids (w_app wb) rest = scan_ids (w_app w) rest).
      { apply scan_ids_ext; [done|]. by apply without_openMerge_name. }
      exists l', r. split_and!.
      * cbn [postStartScan]. unfold bind, deref, gets, emit, modify.
        rewrite Hsvc. cbn beta iota. fold wa.
        change (w_app wa) with (w_app w). rewrite Hscan.
        rewrite Hthen, Hrest, Hidsb, Hids.
        destruct w as [[] ? ? ? ? ?]. simpl. by rewrite <- app_assoc.
      * by rewrite Hl'.
      * rewrite Hr, Hidsb, Hids, Forall_cons, Hscan. split; [|tauto].
        intros Hall. split; [by eexists | done].
      * intros Hnodup j.
        assert (i = service) as ->
          by by apply (unique_name_index (app_services (w_app w)) i service
                         cfg svc).
        assert (cfg = svc) as -> by congruence.
        rewrite Hlookup.
        2:{ simpl. rewrite (without_openMerge_name _ _ Hl1). exact Hnodup. }
        simpl. unfold l1. simpl.
        destruct (decide (j = service)) as [->|Hne].
        -- rewrite list_lookup_insert_eq by by eapply lookup_lt_Some.
           rewrite Hsvc. simpl.
           rewrite (decide_True (P := service ∈ service :: rest))
             by apply list_elem_of_here.
           assert (Hresult : scan_result (w_app w) svc
                             = set_openMerge (openMerge (w_app w) svc data) svc)
             by (unfold scan_result; by rewrite Hscan).
           rewrite <- Hresult.
           destruct (decide (service ∈ rest)); [|done].
           f_equal. by apply scan_result_again.
        -- rewrite list_lookup_insert_ne by done.
           destruct (app_services (w_app w) !! j) as [y|]; [|done]. simpl.
           f_equal.
           destruct (decide (j ∈ rest)) as [Hin|Hnin].
           ++ by rewrite decide_True by by apply list_elem_of_further.
           ++ rewrite decide_False; [done|].
              rewrite elem_of_cons. intros [?|?]; done.
    + set (wa := with_trace
                   (w_trace w ++ [EEngineScan (containerId (w_app w) svc)]) w).
      destruct (IH wa) as (l' & r & Hrest & Hl' & Hr & Hlookup).
      { intros s Hs. simpl. apply Hvalid. by apply list_elem_of_further. }
      exists l', (match r with
                  | Ok _ => Throw (Rejection (containerId (w_app w) svc))
                  | Throw e => Throw e
                  end).
      split_and!.
      * cbn [postStartScan]. unfold bind, deref, gets, emit, modify, throw.
        rewrite Hsvc. cbn beta iota. fold wa.
        change (w_app wa) with (w_app w). rewrite Hscan, Hrest.
        change (scan_ids (w_app wa) rest) with (scan_ids (w_app w) rest).
        rewrite Hids.
        destruct w as [[] ? ? ? ? ?]. simpl. rewrite <- app_assoc. simpl.
        destruct r as [[]|e]; reflexivity.
      * done.
      * rewrite Hids, Forall_cons, Hscan. split.
        -- by destruct r as [[]|e].
        -- intros [[? ?] _]. done.
      * intros Hnodup j. rewrite (Hlookup Hnodup j). simpl.
        destruct (app_services (w_app w) !! j) as [y|] eqn:Hj; [|done]. simpl.
        f_equal.
        destruct (decide (j ∈ rest)) as [Hin|Hnin].
        -- by rewrite decide_True by by apply list_elem_of_further.
        -- destruct (decide (j = service)) as [->|Hne].
           ++ rewrite decide_True by apply list_elem_of_here.
              assert (y = svc) as -> by congruence.
              unfold scan_result. by rewrite Hscan.
           ++ rewrite decide_False; [done|].
              rewrite elem_of_cons. intros [?|?]; done.
Qed.


Lemma scans_succeed (app : App) (services : list nat) :
  Forall (λ id, is_Some (engine_scan id)) (scan_ids app services)
  ↔ ∀ service svc,
      service ∈ services → app_services app !! service = Some svc →
      is_Some (engine_scan (containerId app svc)).
Proof.
  rewrite Forall_forall. unfold scan_ids. split.
  - intros Hall service svc Hin Hsvc. apply Hall.
    apply list_elem_of_omap. exists service. by rewrite Hsvc.
  - intros Hall id (service & Hin & Hid)%list_elem_of_omap.
    destruct (app_services app !! service) as [svc|] eqn:Hsvc; [|done].
    injection Hid as <-. by apply (Hall service).
Qed.

(** X13.  The data of a scan go to the config that [_.find] gives for the
    name of the scanned service: the first element of
    [app.config.services] with that name, which is the scanned service
    itself when names are not shared.  That element gets its [openMerge]
    and nothing else of the world changes; the lookup never fails, so the
    callback never throws. *)
Theorem scanThen_first_of_name (w : World) (service : nat) (svc : Service)
    (data : jsval) :
  app_services (w_app w) !! service = Some svc →
  ∃ i serviceConfig,
    (i ≤ service)%nat
    ∧ app_services (w_app w) !! i = Some serviceConfig
    ∧ svc_name serviceConfig = svc_name svc
    ∧ (∀ j y, j < i → app_services (w_app w) !! j = Some y →
              svc_name y ≠ svc_name svc)
    ∧ (NoDup (svc_name <$> app_services (w_app w)) → i = service)
    ∧ scanThen service data w =
        (with_app
           (set_services
              (<[i := set_openMerge (openMerge (w_app w) serviceConfig data)
                        serviceConfig]> (app_services (w_app w)))
              (w_app w)) w, Ok tt).
Proof.
  intros Hsvc.
  destruct (scanThen_spec w service svc data Hsvc)
    as (i & cfg & Hle & Hi & Hname & Hfirst & Hthen).
  exists i, cfg. split_and!; try done.
  intros Hnodup.
  by apply (unique_name_index (app_services (w_app w)) i service cfg svc).
Qed.

(** X14.  When no two services share a name, the [post-start] handler of
    priority 1 leaves every scanned service whose scan gave data with the
    live facts of that scan, and every other service as it was; a service
    listed twice ends as if listed once.  The handler is fulfilled exactly
    when every scan is. *)
Theorem postStartScan_live_facts (w : World) (services : list nat) :
  (∀ service, service ∈ services →
              is_Some (app_services (w_app w) !! service)) →
  NoDup (svc_name <$> app_services (w_app w)) →
  (∀ j, app_services (w_app (postStartScan services w).1) !! j =
          (λ svc, if decide (j ∈ services)
                  then scan_result (w_app w) svc else svc)
            <$> app_services (w_app w) !! j)
  ∧ ((postStartScan services w).2 = Ok tt
     ↔ ∀ service svc,
         service ∈ services → app_services (w_app w) !! service = Some svc →
         is_Some (engine_scan (containerId (w_app w) svc))).
Proof.
  intros Hvalid Hnodup.
  destruct (postStartScan_spec services w Hvalid)
    as (l' & r & -> & _ & Hr & Hlookup).
  simpl. split; [by apply Hlookup|]. by rewrite Hr, scans_succeed.
Qed.

(** X15.  Whatever the scans give, the handler scans the container of
    every service once, in the order of the array, and changes nothing but
    the [openMerge] of services: the cache, the files, the directories, the
    other fields of [app] and of every service, and the number and order
    of the services are as they were. *)
Theorem postStartScan_frame (w : World) (services : list nat) :
  (∀ service, service ∈ services →
              is_Some (app_services (w_app w) !! service)) →
  let w' := (postStartScan services w).1 in
  w_trace w' = w_trace w ++ (EEngineScan <$> scan_ids (w_app w) services)
  ∧ length (scan_ids (w_app w) services) = length services
  ∧ w_cache w' = w_cache w ∧ w_files w' = w_files w ∧ w_dirs w' = w_dirs w
  ∧ w_app w' = set_services (app_services (w_app w')) (w_app w)
  ∧ without_openMerge <$> app_services (w_app w')
    = without_openMerge <$> app_services (w_app w).
Proof.
  intros Hvalid w'. subst w'.
  destruct (postStartScan_spec services w Hvalid)
    as (l' & r & -> & Hl' & _ & _).
  simpl. split_and!; try done.
  clear l' r Hl'. unfold scan_ids.
  induction services as [|service rest IH]; [done|].
  destruct (Hvalid service) as [svc Hsvc]; [apply list_elem_of_here|].
  csimpl. rewrite Hsvc. simpl. f_equal. apply IH.
  intros s Hs. apply Hvalid. by apply list_elem_of_further.
Qed.

End Scanning.

Lemma scanThen_first_of_name_witness :
  app_services (w_app Example.fresh) !! 0 = Some Example.db
  ∧ ∃ i serviceConfig,
      (i ≤ 0)%nat
      ∧ @scanThen Example.env 0 JNull Example.fresh =
          (with_app
             (set_services
                (<[i := set_openMerge
                          (@openMerge Example.env (w_app Example.fresh)
                             serviceConfig JNull) serviceConfig]>
                   (app_services (w_app Example.fresh)))
                (w_app Example.fresh)) Example.fresh, Ok tt).
Proof.
  split; [reflexivity|].
  destruct (@scanThen_first_of_name Example.env Example.fresh 0 Example.db
              JNull eq_refl)
    as (i & cfg & Hle & _ & _ & _ & _ & Hthen).
  exists i, cfg. split; [exact Hle | exact Hthen].
Defined.

Lemma example_valid_references (service : nat) :
  service ∈ [0] → is_Some (app_services (w_app Example.fresh) !! service).
Proof. intros ->%list_elem_of_singleton. by eexists. Qed.

Lemma postStartScan_live_facts_witness :
  NoDup (svc_name <$> app_services (w_app Example.fresh))
  ∧ app_services (w_app (@postStartScan Example.env [0] Example.fresh).1) !! 0
    = Some (@scan_result Example.env (w_app Example.fresh) Example.db).
Proof.
  assert (Hnodup : NoDup (svc_name <$> app_services (w_app Example.fresh))).
  { apply (NoDup_cons_2 "db" ["web"]).
    - intros Hin%list_elem_of_singleton. discriminate Hin.
    - apply (NoDup_singleton "web"). }
  split; [exact Hnodup|].
  exact (proj1 (@postStartScan_live_facts Example.env Example.fresh [0]
                  example_valid_references Hnodup) 0).
Defined.

Lemma postStartScan_frame_witness :
  w_cache (@postStartScan Example.env [0] Example.fresh).1
  = w_cache Example.fresh.
Proof.
  exact (proj1 (proj2 (proj2 (@postStartScan_frame Example.env Example.fresh
                                [0] example_valid_references)))).
Defined.
(** ** The states of the OPEN handler *)

Section OpenStates.

Context `{Collaborators}.

Lemma step_probe (services appservers : list nat) (i : nat)
    (s s' : OpenState) :
  step services appservers (AProbe i) s = Some s' →
  ∃ k service svc,
    st_probes s !! i = Some (Running k)
    ∧ services !! i = Some service
    ∧ app_services (w_app (st_world s)) !! service = Some svc
    ∧ st_probes s' = <[i := attempt (w_app (st_world s)) svc k]> (st_probes s)
    ∧ st_opens s' = st_opens s
    ∧ st_phase s' =
        match attempt (w_app (st_world s)) svc k with
        | Failed =>
            reject (Rejection (containerId (w_app (st_world s)) svc))
              (st_phase s)
        | _ => st_phase s
        end
    ∧ w_cache (st_world s') = w_cache (st_world s)
    ∧ w_files (st_world s') = w_files (st_world s)
    ∧ w_dirs (st_world s') = w_dirs (st_world s).
Proof.
  destruct s as [w probes opens phase]. simpl.
  destruct (probes !! i) as [[k| |]|] eqn:Hprobe; try done.
  destruct (services !! i) as [service|] eqn:Hservice; try done.
  destruct (app_services (w_app w) !! service) as [svc|] eqn:Hsvc; try done.
  unfold attempt.
  destruct (engine_run (serviceRun (w_app w) svc) k) as [data|] eqn:Hrun.
  - unfold bind at 1. simpl. rewrite collect_spec. simpl. rewrite Hsvc.
    intros [= <-]. exists k, service, svc. simpl.
    rewrite Hrun. split_and!; try done; by destruct (parseOpenData data).
  - destruct (decide (k < max_retries)) as [Hlt|Hge] eqn:Hdec;
      intros [= <-]; exists k, service, svc; rewrite Hrun, Hdec;
      by split_and!.
Qed.

Lemma mapM_openAppserver_frame serviceData (appservers : list nat)
    (w w' : World) (r : Result (list RunSpec)) :
  mapM (openAppserver serviceData) appservers w = (w', r) →
  w_files w' = w_files w ∧ w_dirs w' = w_dirs w
  ∧ ∀ key,
      (∀ appserver a,
         appserver ∈ appservers →
         app_services (w_app w) !! appserver = Some a →
         key ≠ openCacheKey (w_app w) a) →
      w_cache w' !! key = w_cache w !! key.
Proof.
  revert w w' r. induction appservers as [|i appservers IH]; intros w w' r.
  - intros [= <- <-]. by split_and!.
  - simpl. unfold bind at 1. rewrite openAppserver_spec.
    destruct (app_services (w_app w) !! i) as [a|] eqn:Ha.
    + set (w1 := with_trace _ _).
      unfold bind at 1.
      destruct (mapM (openAppserver serviceData) appservers w1)
        as [w2 r2] eqn:Hrun.
      destruct (IH w1 w2 r2 Hrun) as (Hfiles & Hdirs & Hcache).
      assert (Hgoal :
                w_files w2 = w_files w ∧ w_dirs w2 = w_dirs w
                ∧ ∀ key,
                    (∀ appserver a,
                       appserver ∈ i :: appservers →
                       app_services (w_app w) !! appserver = Some a →
                       key ≠ openCacheKey (w_app w) a) →
                    w_cache w2 !! key = w_cache w !! key).
      { split_and!; try done.
        intros key Hkey. rewrite Hcache.
        * simpl. apply lookup_insert_ne. intros Heq.
          apply (Hkey i a); [apply list_elem_of_here | exact Ha | by symmetry].
        * intros appserver a' Hin Ha'.
          apply (Hkey appserver a'); [by apply list_elem_of_further | done].
      }
      destruct r2; cbn; unfold ret; intros [= <- <-]; exact Hgoal.
    + intros [= <- <-]. by split_and!.
Qed.

Lemma step_frame (services appservers : list nat) (a : Action)
    (s s' : OpenState) :
  step services appservers a s = Some s' →
  w_files (st_world s') = w_files (st_world s)
  ∧ w_dirs (st_world s') = w_dirs (st_world s)
  ∧ (a ≠ ABarrier → w_cache (st_world s') = w_cache (st_world s))
  ∧ ∀ key,
      (∀ appserver a,
         appserver ∈ appservers →
         app_services (w_app (st_world s)) !! appserver = Some a →
         key ≠ openCacheKey (w_app (st_world s)) a) →
      w_cache (st_world s') !! key = w_cache (st_world s) !! key.
Proof.
  destruct a as [i| |i|].
  - intros (k & service & svc & _ & _ & _ & _ & _ & _ & Hcache & Hfiles
            & Hdirs)%step_probe.
    split_and!; try done. intros key _. by rewrite Hcache.
  - destruct s as [w probes opens phase]. simpl.
    destruct phase; try done.
    destruct (results probes) as [data|]; try done.
    unfold inject.
    destruct (lodash.fromPairs data ∅) as [serviceData|].
    + unfold bind at 1. simpl.
      set (w1 := with_trace _ _).
      destruct (mapM (openAppserver serviceData) appservers w1)
        as [w2 r2] eqn:Hrun.
      destruct (mapM_openAppserver_frame _ _ _ _ _ Hrun)
        as (Hfiles & Hdirs & Hcache).
      destruct r2; intros [= <-]; simpl; split_and!; done.
    + intros [= <-]. by split_and!.
  - destruct s as [w probes opens phase]. simpl.
    destruct (opens !! i); try done. intros [= <-]. by split_and!.
  - destruct s as [w probes opens phase]. simpl.
    destruct phase; try done. destruct opens; try done.
    intros [= <-]. by split_and!.
Qed.

Lemma init_frame (services : list nat) (w : World) :
  w_cache (st_world (init services w)) = w_cache w
  ∧ w_files (st_world (init services w)) = w_files w
  ∧ w_dirs (st_world (init services w)) = w_dirs w.
Proof.
  unfold init, exec. simpl. revert w.
  induction services as [|service rest IH]; intros w; [done|].
  rewrite forEach_cons, startProbe_spec.
  destruct (app_services (w_app w) !! service); [|done].
  destruct (IH (with_trace
                  (w_trace w ++ [EEngineRun (serviceRun (w_app w) s)]) w))
    as (-> & -> & ->).
  done.
Qed.

Section Reachable.

Variables (services appservers : list nat) (w0 : World).

Lemma reachable_probes (s : OpenState) :
  reachable services appservers w0 s →
  w_app (st_world s) = w_app w0
  ∧ ∀ i p service svc,
      st_probes s !! i = Some p →
      services !! i = Some service →
      app_services (w_app w0) !! service = Some svc →
      probe_ok (w_app w0) svc p.
Proof.
  induction 1 as [|a s s' Hreach [Happ IH] Hstep].
  - destruct (startProbes_spec services w0) as (t & _ & Happ & _).
    split; [exact Happ|].
    intros i p service svc Hp _ _. simpl in Hp.
    rewrite list_lookup_fmap in Hp.
    destruct (services !! i); [|done]. injection Hp as <-.
    split; [lia|]. intros j Hj. lia.
  - destruct (step_inv _ _ _ _ _ Hstep) as [Happ' Hrest].
    split; [by rewrite Happ'|].
    destruct a as [i0| |i0|].
    + apply step_probe in Hstep
        as (k & service0 & svc0 & Hk & Hservice0 & Hsvc0 & Hprobes & _).
      rewrite Happ in Hsvc0, Hprobes.
      intros i p service svc Hp Hservice Hsvc. rewrite Hprobes in Hp.
      destruct (decide (i = i0)) as [->|Hne].
      * rewrite list_lookup_insert_eq in Hp by by eapply lookup_lt_Some.
        injection Hp as <-.
        assert (service0 = service) as -> by congruence.
        assert (svc0 = svc) as -> by congruence.
        destruct (IH i0 (Running k) service svc Hk Hservice Hsvc)
          as [Hle Hfailed].
        unfold attempt.
        destruct (engine_run (serviceRun (w_app w0) svc) k) as [data|]
          eqn:Hrun.
        -- by exists k, data.
        -- destruct (decide (k < max_retries)) as [Hlt|Hge]; simpl.
           ++ split; [lia|]. intros j Hj.
              destruct (decide (j = k)) as [->|]; [done|].
              apply Hfailed. lia.
           ++ intros j Hj. destruct (decide (j = k)) as [->|]; [done|].
              apply Hfailed. lia.
      * rewrite list_lookup_insert_ne in Hp by done. by eapply IH.
    + destruct Hrest as (t' & _ & _ & -> & _). exact IH.
    + destruct Hrest as (t' & _ & _ & -> & _). exact IH.
    + destruct Hrest as (t' & _ & _ & -> & _). exact IH.
Qed.

(** X16.  In every state of a run of the OPEN handler, the probe of a
    service is at an attempt no later than [max_retries] with every
    earlier attempt rejected; a probe that has settled holds what the
    output of its first successful attempt gives; and a probe has failed
    only when every attempt, the first and [max_retries] more, was
    rejected. *)
Theorem probe_attempts_bounded (s : OpenState) (i service : nat)
    (svc : Service) :
  reachable services appservers w0 s →
  services !! i = Some service →
  app_services (w_app w0) !! service = Some svc →
  ∃ p, st_probes s !! i = Some p ∧ probe_ok (w_app w0) svc p.
Proof.
  intros Hreach Hservice Hsvc.
  destruct (reachable_open_inv _ _ _ _ Hreach) as (_ & Hlen & _).
  destruct (lookup_lt_is_Some_2 (st_probes s) i) as [p Hp].
  { rewrite Hlen. by eapply lookup_lt_Some. }
  exists p. split; [done|].
  by apply (proj2 (reachable_probes s Hreach) i p service svc).
Qed.

Lemma reachable_settled (s : OpenState) :
  reachable services appservers w0 s →
  (st_phase s = ProbingApps ∨ st_phase s = Complete →
   is_Some (results (st_probes s)))
  ∧ (st_phase s = Complete → st_opens s = [])
  ∧ (w_cache (st_world s) = w_cache w0 ∨ is_Some (results (st_probes s))).
Proof.
  induction 1 as [|a s s' Hreach (Hsettled & Hcomplete & Hcache) Hstep].
  - split_and!.
    + intros [?|?]; done.
    + done.
    + left. by destruct (init_frame services w0).
  - pose proof (step_frame _ _ _ _ _ Hstep) as (_ & _ & Hsame & _).
    destruct a as [i| |i|].
    + apply step_probe in Hstep
        as (k & service & svc & Hk & _ & _ & Hprobes & Hopens & Hphase & _).
      assert (Hnone : results (st_probes s) = None).
      { destruct (results (st_probes s)) as [data|] eqn:Hresults; [|done].
        by destruct (results_lookup _ _ _ _ Hresults Hk) as (r & ? & _). }
      assert (Hbefore : st_phase s ≠ ProbingApps ∧ st_phase s ≠ Complete).
      { split; intros Hph.
        - destruct Hsettled as [? Hsome]; [by left|].
          by rewrite Hnone in Hsome.
        - destruct Hsettled as [? Hsome]; [by right|].
          by rewrite Hnone in Hsome. }
      assert (Hafter : st_phase s' ≠ ProbingApps ∧ st_phase s' ≠ Complete).
      { rewrite Hphase. destruct Hbefore as [? ?].
        destruct (attempt _ _ _), (st_phase s); by split. }
      split_and!.
      * intros [?|?]; by destruct Hafter.
      * intros ?; by destruct Hafter.
      * left. rewrite Hsame by done.
        destruct Hcache as [?|Hsome]; [done|]. rewrite Hnone in Hsome.
        by destruct Hsome.
    + destruct (step_inv _ _ _ _ _ Hstep)
        as (_ & t' & _ & Hphase & Hprobes & data & Hresults & Hpairs).
      rewrite Hprobes, Hresults. split_and!; try by eexists.
      * intros Hdone. destruct s as [w probes opens phase]. simpl in *.
        subst phase. rewrite Hresults in Hstep.
        destruct (inject appservers data w) as [w' [runs|e]];
          injection Hstep as <-; done.
      * right. by eexists.
    + destruct (step_inv _ _ _ _ _ Hstep)
        as (_ & t' & _ & _ & Hprobes & Hphase & run & Hrun).
      assert (Hopening : st_phase s ≠ Complete).
      { intros Hdone. rewrite (Hcomplete Hdone) in Hrun. done. }
      rewrite Hprobes, Hsame by done. split_and!; try done.
      * intros Hph. apply Hsettled.
        destruct Hphase as [<-|[e Hphase]]; [done|].
        rewrite Hphase in Hph. destruct (st_phase s), Hph; by auto.
      * intros Hph. destruct Hphase as [Heq|[e Hphase]].
        -- by rewrite Heq in Hph.
        -- rewrite Hphase in Hph. by destruct (st_phase s).
    + destruct (step_inv _ _ _ _ _ Hstep)
        as (_ & t' & _ & _ & Hprobes & Hphase & Hopens & Hdone).
      rewrite Hprobes, Hsame by done. split_and!; try done.
      * intros _. apply Hsettled. by left.
      * intros _. destruct s as [w probes opens phase]. simpl in *.
        subst. by injection Hstep as <-.
Qed.

(** X17.  Once the promise of the handler is fulfilled nothing of it is
    left to run: in a state of a run whose phase is [Complete] no probe is
    running and no application server is being opened, so no action is
    enabled. *)
Theorem complete_is_final (s : OpenState) (a : Action) :
  reachable services appservers w0 s →
  st_phase s = Complete →
  step services appservers a s = None.
Proof.
  intros Hreach Hdone.
  destruct (reachable_settled s Hreach) as (Hsettled & Hcomplete & _).
  destruct (Hsettled (or_intror Hdone)) as [data Hresults].
  specialize (Hcomplete Hdone).
  destruct s as [w probes opens phase]. simpl in *. subst.
  destruct a as [i| |i|]; simpl; try done.
  destruct (probes !! i) as [[k| |]|] eqn:Hprobe; try done.
  by destruct (results_lookup _ _ _ _ Hresults Hprobe) as (r & ? & _).
Qed.

(** X18.  A rejection is final.  In a state whose phase is [Rejected e]
    the probes and the runs that are still going may end, but the phase
    stays [Rejected e] with the same [e] (the first rejection is the one
    the handler is rejected with), no application server is opened any
    more and the cache is not written. *)
Theorem rejected_is_final (s s' : OpenState) (a : Action) (e : exn) :
  st_phase s = Rejected e →
  step services appservers a s = Some s' →
  st_phase s' = Rejected e
  ∧ w_cache (st_world s') = w_cache (st_world s)
  ∧ ∃ t', w_trace (st_world s') = w_trace (st_world s) ++ t'
          ∧ Forall (λ e', app_open e' = false) t'.
Proof.
  intros Hrejected Hstep.
  pose proof (step_frame _ _ _ _ _ Hstep) as (_ & _ & Hsame & _).
  destruct (step_inv _ _ _ _ _ Hstep) as (_ & t' & Htrace & Hrest).
  destruct a as [i| |i|].
  - destruct Hrest as (Hquiet & _ & Hphase & _).
    split_and!; [|by apply Hsame|by exists t'].
    rewrite Hrejected in Hphase. by destruct Hphase as [->|[e' ->]].
  - destruct Hrest as (Hphase & _). congruence.
  - destruct Hrest as (Hquiet & _ & Hphase & _).
    split_and!; [|by apply Hsame|by exists t'].
    rewrite Hrejected in Hphase. by destruct Hphase as [->|[e' ->]].
  - destruct Hrest as (_ & _ & Hphase & _). congruence.
Qed.

(** X19.  A run of the OPEN handler writes no file, makes no directory
    and leaves [app] alone.  Of the cache it can only write the keys
    [<app>.<appserver>.open.cache] of the application servers, and it
    writes none of them as long as a probe has not settled: with a probe
    that is still running, or has failed, the cache is as it was. *)
Theorem open_frame (s : OpenState) :
  reachable services appservers w0 s →
  w_app (st_world s) = w_app w0
  ∧ w_files (st_world s) = w_files w0
  ∧ w_dirs (st_world s) = w_dirs w0
  ∧ (results (st_probes s) = None → w_cache (st_world s) = w_cache w0)
  ∧ ∀ key,
      (∀ appserver a,
         appserver ∈ appservers →
         app_services (w_app w0) !! appserver = Some a →
         key ≠ openCacheKey (w_app w0) a) →
      w_cache (st_world s) !! key = w_cache w0 !! key.
Proof.
  intros Hreach. split_and!.
  - by destruct (reachable_open_inv _ _ _ _ Hreach).
  - induction Hreach as [|a s s' Hreach IH Hstep].
    + by destruct (init_frame services w0) as (_ & ? & _).
    + destruct (step_frame _ _ _ _ _ Hstep) as (-> & _). exact IH.
  - induction Hreach as [|a s s' Hreach IH Hstep].
    + by destruct (init_frame services w0) as (_ & _ & ?).
    + destruct (step_frame _ _ _ _ _ Hstep) as (_ & -> & _). exact IH.
  - intros Hnone.
    destruct (reachable_settled s Hreach) as (_ & _ & [?|Hsome]); [done|].
    rewrite Hnone in Hsome. by destruct Hsome.
  - induction Hreach as [|a s s' Hreach IH Hstep].
    + intros key _. by destruct (init_frame services w0) as (-> & _).
    + intros key Hkey.
      destruct (step_frame _ _ _ _ _ Hstep) as (_ & _ & _ & Hstepkey).
      destruct (reachable_open_inv _ _ _ _ Hreach) as (Happ & _).
      rewrite Hstepkey; [by apply IH|]. by rewrite Happ.
Qed.

End Reachable.

End OpenStates.
(** ** A run of the OPEN handler that completes *)

Section Liveness.

Context `{Collaborators}.

Lemma run_app services appservers (l1 l2 : list Action) (s : OpenState) :
  run services appservers (l1 ++ l2) s =
    match run services appservers l1 s with
    | Some s1 => run services appservers l2 s1
    | None => None
    end.
Proof.
  revert s. induction l1 as [|a l1 IH]; intros s; simpl; [done|].
  destruct (step services appservers a s); [apply IH | done].
Qed.

Lemma results_settled (rs : list (option (string * list obj))) :
  results (Settled <$> rs) = Some rs.
Proof. induction rs as [|r rs IH]; [done|]. csimpl. by rewrite IH. Qed.

Lemma fromPairs_Some {V} (data : list (option (string * V)))
    (m : gmap string V) :
  Forall is_Some data → is_Some (lodash.fromPairs data m).
Proof.
  intros Hall. revert m.
  induction Hall as [|[[k v]|] data [? ?] _ IH]; intros m; simpl;
    done || apply IH.
Qed.

Lemma step_probe_first services appservers (s : OpenState) (i service : nat)
    (svc : Service) (data : string) :
  st_probes s !! i = Some (Running 0) →
  services !! i = Some service →
  app_services (w_app (st_world s)) !! service = Some svc →
  engine_run (serviceRun (w_app (st_world s)) svc) 0 = Some data →
  ∃ s', step services appservers (AProbe i) s = Some s'
        ∧ st_probes s' = <[i := Settled (collected_of svc data)]> (st_probes s)
        ∧ st_opens s' = st_opens s ∧ st_phase s' = st_phase s
        ∧ w_app (st_world s') = w_app (st_world s).
Proof.
  intros Hprobe Hservice Hsvc Hrun.
  destruct s as [w probes opens phase]. simpl in *.
  rewrite Hprobe, Hservice, Hsvc, Hrun.
  unfold bind at 1. simpl. rewrite collect_spec. simpl. rewrite Hsvc.
  eexists. split; [reflexivity|]. simpl.
  split_and!; try done. by destruct (parseOpenData data).
Qed.

Lemma probes_settle services appservers (app : App) (todo : list nat) :
  ∀ (svcs : list Service) (sdone : list nat) (done : list Probe)
    (s : OpenState),
    services = sdone ++ todo → length done = length sdone →
    Forall2 (λ i svc, app_services app !! i = Some svc) todo svcs →
    (∀ svc, svc ∈ svcs → is_Some (engine_run (serviceRun app svc) 0)) →
    w_app (st_world s) = app →
    st_probes s = done ++ map (λ _, Running 0) todo →
    ∃ s',
      run services appservers (AProbe <$> seq (length done) (length todo)) s
        = Some s'
      ∧ st_probes s' = done ++ (Settled <$> (probe_result app <$> svcs))
      ∧ st_opens s' = st_opens s ∧ st_phase s' = st_phase s
      ∧ w_app (st_world s') = app.
Proof.
  induction todo as [|service todo IH];
    intros svcs sdone done s Hservices Hlen Hvalid Hruns Happ Hprobes.
  - apply Forall2_nil_inv_l in Hvalid as ->. exists s. by split_and!.
  - apply Forall2_cons_inv_l in Hvalid as (svc & svcs' & Hsvc & Hvalid & ->).
    destruct (Hruns svc) as [data Hrun]; [apply list_elem_of_here|].
    destruct (step_probe_first services appservers s (length done) service
                svc data) as (s1 & Hstep & Hprobes1 & Hopens1 & Hphase1 & Happ1).
    { rewrite Hprobes. by apply list_lookup_middle. }
    { rewrite Hservices. by apply list_lookup_middle. }
    { by rewrite Happ. }
    { by rewrite Happ. }
    destruct (IH svcs' (sdone ++ [service])
                (done ++ [Settled (collected_of svc data)]) s1)
      as (s' & Hrun' & Hprobes' & Hopens' & Hphase' & Happ').
    { by rewrite <- app_assoc. }
    { rewrite !length_app. simpl. lia. }
    { done. }
    { intros svc' Hin. apply Hruns. by apply list_elem_of_further. }
    { by rewrite Happ1. }
    { rewrite Hprobes1, Hprobes. simpl.
      rewrite insert_app_r_alt by lia. rewrite Nat.sub_diag. simpl.
      by rewrite <- app_assoc. }
    exists s'. split_and!.
    + change (AProbe <$> seq (length done) (length (service :: todo)))
        with (AProbe (length done)
                :: (AProbe <$> seq (S (length done)) (length todo))).
      rewrite run_cons, Hstep.
      rewrite length_app in Hrun'. simpl in Hrun'.
      by rewrite Nat.add_1_r in Hrun'.
    + rewrite Hprobes', <- app_assoc. simpl. f_equal. f_equal. f_equal.
      unfold probe_result. by rewrite Hrun.
    + by rewrite Hopens'.
    + by rewrite Hphase'.
    + done.
Qed.

Lemma mapM_openAppserver_valid serviceData (appservers : list nat)
    (servers : list Service) (w : World) :
  Forall2 (λ i a, app_services (w_app w) !! i = Some a) appservers servers →
  ∃ w',
    mapM (openAppserver serviceData) appservers w
    = (w', Ok (map (λ a, appRun (w_app w) a (payload_of serviceData a))
                 servers))
    ∧ w_app w' = w_app w
    ∧ w_trace w' =
        w_trace w ++ flat_map (open_effects (w_app w) serviceData) servers.
Proof.
  intros Hvalid. revert w Hvalid.
  induction appservers as [|i appservers IH] in servers |- *; intros w Hvalid.
  - apply Forall2_nil_inv_l in Hvalid as ->. exists w. simpl.
    by rewrite app_nil_r.
  - apply Forall2_cons_inv_l in Hvalid as (a & servers' & Ha & Hvalid & ->).
    simpl. unfold bind at 1. rewrite openAppserver_spec, Ha.
    set (w1 := with_trace _ _).
    destruct (IH servers' w1 Hvalid) as (w' & Hrun & Happ & Htrace).
    exists w'. unfold bind at 1. rewrite Hrun. split_and!; try done.
    rewrite Htrace. simpl. by rewrite <- app_assoc.
Qed.

Lemma step_open_first services appservers (s : OpenState) (r : RunSpec)
    (runs : list RunSpec) (out : string) :
  st_opens s = r :: runs → engine_run r 0 = Some out →
  step services appservers (AOpen 0) s
  = Some {| st_world := exec (emit (EEngineDone r (Some out))) (st_world s);
            st_probes := st_probes s; st_opens := runs;
            st_phase := st_phase s |}.
Proof.
  intros Hopens Hout. unfold step. rewrite Hopens.
  cbn [lookup list_lookup delete list_delete]. by rewrite Hout.
Qed.

Lemma opens_end services appservers (runs : list RunSpec) :
  ∀ s : OpenState,
    st_opens s = runs → st_phase s = ProbingApps →
    (∀ r, r ∈ runs → is_Some (engine_run r 0)) →
    ∃ s',
      run services appservers (replicate (length runs) (AOpen 0)) s = Some s'
      ∧ st_opens s' = [] ∧ st_phase s' = ProbingApps
      ∧ ∃ t, w_trace (st_world s') = w_trace (st_world s) ++ t.
Proof.
  induction runs as [|r runs IH]; intros s Hopens Hphase Hruns.
  - exists s. split_and!; try done. exists []. by rewrite app_nil_r.
  - destruct (Hruns r) as [out Hout]; [apply list_elem_of_here|].
    pose proof (step_open_first services appservers s r runs out Hopens Hout)
      as Hstep.
    edestruct (IH {| st_world :=
                       exec (emit (EEngineDone r (Some out))) (st_world s);
                     st_probes := st_probes s; st_opens := runs;
                     st_phase := st_phase s |})
      as (s' & Hrun & Hopens' & Hphase' & t & Htrace); try done.
    { intros r' Hin. apply Hruns. by apply list_elem_of_further. }
    exists s'. split_and!; try done.
    + change (replicate (length (r :: runs)) (AOpen 0))
        with (AOpen 0 :: replicate (length runs) (AOpen 0)).
      by rewrite run_cons, Hstep.
    + eexists. rewrite Htrace. simpl. by rewrite <- app_assoc.
Qed.

Lemma step_barrier services appservers (s : OpenState)
    (data : list (option (string * list obj)))
    (serviceData : gmap string (list obj)) (servers : list Service) :
  st_phase s = ProbingServices →
  results (st_probes s) = Some data →
  lodash.fromPairs data ∅ = Some serviceData →
  Forall2 (λ i a, app_services (w_app (st_world s)) !! i = Some a)
    appservers servers →
  ∃ s',
    step services appservers ABarrier s = Some s'
    ∧ st_phase s' = ProbingApps
    ∧ st_opens s' =
        map (λ a, appRun (w_app (st_world s)) a (payload_of serviceData a))
          servers
    ∧ w_trace (st_world s') =
        w_trace (st_world s) ++
          collected
            :: flat_map (open_effects (w_app (st_world s)) serviceData) servers.
Proof.
  intros Hphase Hresults Hpairs Hvalid.
  destruct s as [w probes opens phase]. simpl in *. subst phase.
  rewrite Hresults. unfold inject. rewrite Hpairs.
  set (w1 := with_trace (w_trace w ++ [collected]) w).
  destruct (mapM_openAppserver_valid serviceData appservers servers w1 Hvalid)
    as (w2 & Hinject & Happ2 & Htrace2).
  change ((log AppLog LDebug "collected open data from platform services" []
             >> mapM (openAppserver serviceData) appservers) w)
    with (mapM (openAppserver serviceData) appservers w1).
  rewrite Hinject. eexists. split; [reflexivity|]. simpl.
  split_and!; try done. rewrite Htrace2. simpl. by rewrite <- app_assoc.
Qed.

(** X20.  When every service and application server of the handler is in
    [app.config.services], the first attempt of every probe gives an
    output that parses and every run of an application server ends well,
    the handler completes: taking the probes in the order of the array,
    then the servers, ends in the phase [Complete], and every application
    server was opened with the payload made from the collected data. *)
Theorem open_completes (w0 : World) (services appservers : list nat)
    (svcs servers : list Service) :
  Forall2 (λ i svc, app_services (w_app w0) !! i = Some svc) services svcs →
  Forall2 (λ i a, app_services (w_app w0) !! i = Some a) appservers servers →
  (∀ svc, svc ∈ svcs →
     ∃ data, engine_run (serviceRun (w_app w0) svc) 0 = Some data
             ∧ is_Some (parseOpenData data)) →
  (∀ a payload, a ∈ servers →
     is_Some (engine_run (appRun (w_app w0) a payload) 0)) →
  ∃ s serviceData,
    run services appservers (in_order services appservers) (init services w0)
      = Some s
    ∧ st_phase s = Complete
    ∧ st_opens s = []
    ∧ lodash.fromPairs (probe_result (w_app w0) <$> svcs) ∅ = Some serviceData
    ∧ ∀ a, a ∈ servers →
           EEngineRun (appRun (w_app w0) a (payload_of serviceData a))
             ∈ w_trace (st_world s).
Proof.
  intros Hsvcs Hservers Hprobes Hopens.
  destruct (startProbes_spec services w0) as (t0 & _ & Happ0 & _).
  destruct (probes_settle services appservers (w_app w0) services svcs [] []
              (init services w0))
    as (s1 & Hrun1 & Hprobes1 & Hopens1 & Hphase1 & Happ1); try done.
  { intros svc Hin. destruct (Hprobes svc Hin) as (data & -> & _).
    by eexists. }
  simpl in Hprobes1, Hopens1, Hphase1.
  change (length (@nil Probe)) with 0 in Hrun1.
  assert (Hsome : Forall is_Some (probe_result (w_app w0) <$> svcs)).
  { apply Forall_fmap, Forall_forall. intros svc Hin. simpl.
    destruct (Hprobes svc Hin) as (data & Hdata & [parsed Hparsed]).
    unfold probe_result, collected_of. rewrite Hdata, Hparsed. by eexists. }
  destruct (fromPairs_Some _ ∅ Hsome) as [serviceData Hpairs].
  assert (Hvalid1 : Forall2 (λ i a, app_services (w_app (st_world s1)) !! i
                                    = Some a) appservers servers)
    by by rewrite Happ1.
  destruct (step_barrier services appservers s1
              (probe_result (w_app w0) <$> svcs) serviceData servers)
    as (s2 & Hstep2 & Hphase2 & Hopens2 & Htrace2); try done.
  { by rewrite Hprobes1, results_settled. }
  rewrite Happ1 in Hopens2, Htrace2.
  destruct (opens_end services appservers _ s2 Hopens2 Hphase2)
    as (s3 & Hrun3 & Hopens3 & Hphase3 & t3 & Htrace3).
  { intros r (a & -> & Hin)%list_elem_of_fmap. by apply Hopens. }
  exists {| st_world := st_world s3; st_probes := st_probes s3;
            st_opens := []; st_phase := Complete |}, serviceData.
  split_and!; try done.
  - unfold in_order. rewrite run_app, Hrun1. rewrite run_cons, Hstep2.
    rewrite run_app.
    assert (Hlen : length appservers
                   = length (map (λ a, appRun (w_app w0) a
                                         (payload_of serviceData a)) servers)).
    { rewrite length_map. by eapply Forall2_length. }
    rewrite Hlen, Hrun3. simpl.
    destruct s3 as [w probes opens phase]. simpl in *. by subst.
  - intros a Hin. simpl. rewrite Htrace3. apply elem_of_app. left.
    rewrite Htrace2. apply elem_of_app. right.
    apply list_elem_of_further, list_elem_of_In, in_flat_map. exists a.
    split; [by apply list_elem_of_In|]. simpl.
    do 4 right. by left.
Qed.

End Liveness.
Lemma scenario_completed :
  @run Example.env [0] [1] (in_order [0] [1]) (init [0] Example.fresh)
  = Some Scenario.completed.
Proof. by vm_compute. Qed.

Lemma completed_reachable :
  @reachable Example.env [0] [1] Example.fresh Scenario.completed.
Proof.
  apply (@run_reachable Example.env [0] [1] Example.fresh (in_order [0] [1])
           (init [0] Example.fresh)).
  - apply reach_init.
  - exact scenario_completed.
Qed.

Lemma probe_attempts_bounded_witness :
  @reachable Example.env [0] [1] Example.fresh Scenario.completed
  ∧ ∃ p, st_probes Scenario.completed !! 0 = Some p
         ∧ @probe_ok Example.env (w_app Example.fresh) Example.db p.
Proof.
  split; [exact completed_reachable|].
  exact (@probe_attempts_bounded Example.env [0] [1] Example.fresh
           Scenario.completed 0 0 Example.db completed_reachable
           eq_refl eq_refl).
Defined.

Lemma complete_is_final_witness :
  @reachable Example.env [0] [1] Example.fresh Scenario.completed
  ∧ st_phase Scenario.completed = Complete
  ∧ @step Example.env [0] [1] (AOpen 0) Scenario.completed = None.
Proof.
  assert (Hdone : st_phase Scenario.completed = Complete) by by vm_compute.
  split; [exact completed_reachable | split; [exact Hdone|]].
  exact (@complete_is_final Example.env [0] [1] Example.fresh
           Scenario.completed (AOpen 0) completed_reachable Hdone).
Defined.

Lemma rejected_is_final_witness :
  st_phase Scenario.down = Rejected (Rejection "myapp_db_1")
  ∧ @step Scenario.env_down [0; 1] [2] (AProbe 1) Scenario.down
    = Some Scenario.down_settled
  ∧ st_phase Scenario.down_settled = Rejected (Rejection "myapp_db_1").
Proof.
  assert (Hrejected : st_phase Scenario.down
                      = Rejected (Rejection "myapp_db_1")) by by vm_compute.
  assert (Hstep : @step Scenario.env_down [0; 1] [2] (AProbe 1) Scenario.down
                  = Some Scenario.down_settled) by by vm_compute.
  split; [exact Hrejected | split; [exact Hstep|]].
  exact (proj1 (@rejected_is_final Scenario.env_down [0; 1] [2] Scenario.down
                  Scenario.down_settled (AProbe 1) _ Hrejected Hstep)).
Defined.

Lemma open_frame_witness :
  @reachable Example.env [0] [1] Example.fresh Scenario.completed
  ∧ w_files (st_world Scenario.completed) = w_files Example.fresh.
Proof.
  split; [exact completed_reachable|].
  exact (proj1 (proj2 (@open_frame Example.env [0] [1] Example.fresh
                         Scenario.completed completed_reachable))).
Defined.

Lemma open_completes_witness :
  Forall2 (λ i svc, app_services (w_app Example.fresh) !! i = Some svc)
    [0] [Example.db]
  ∧ Forall2 (λ i a, app_services (w_app Example.fresh) !! i = Some a)
      [1] [Example.web]
  ∧ ∃ s, @run Example.env [0] [1] (in_order [0] [1]) (init [0] Example.fresh)
         = Some s
         ∧ st_phase s = Complete.
Proof.
  assert (Hsvcs : Forall2 (λ i svc, app_services (w_app Example.fresh) !! i
                                    = Some svc) [0] [Example.db])
    by (by repeat constructor).
  assert (Hservers : Forall2 (λ i a, app_services (w_app Example.fresh) !! i
                                     = Some a) [1] [Example.web])
    by (by repeat constructor).
  split; [exact Hsvcs | split; [exact Hservers|]].
  destruct (@open_completes Example.env Example.fresh [0] [1] [Example.db]
              [Example.web] Hsvcs Hservers)
    as (s & serviceData & Hrun & Hphase & _).
  - intros svc Hin. exists Example.probe_output. split; [reflexivity|].
    by eexists.
  - intros a payload Hin. by eexists.
  - exists s. by split.
Defined.

(** ** The endpoints of a backing service *)

Lemma assignMergeValue_get_undefined k (o : obj) :
  obj_get k (lodash.assignMergeValue o k PUndefined)
  = Some (default JUndefined (obj_get k o)).
Proof.
  unfold lodash.assignMergeValue.
  destruct (obj_get k o) as [v|] eqn:Hk; simpl.
  - by rewrite Hk.
  - apply obj_get_set_eq.
Qed.

Lemma merge_app (o : obj) source1 source2 :
  lodash.merge o (source1 ++ source2)
  = lodash.merge (lodash.merge o source1) source2.
Proof. unfold lodash.merge. apply foldl_app. Qed.

Lemma merge_cons (o : obj) k v source :
  lodash.merge o ((k, v) :: source)
  = lodash.merge (lodash.assignMergeValue o k v) source.
Proof. reflexivity. Qed.

(** A key the source has once gets the value of the source, but for
    [undefined], which leaves a value that is there. *)
Lemma merge_get_once k v (o : obj) source1 source2 :
  k ∉ source1.*1 → k ∉ source2.*1 →
  obj_get k (lodash.merge o (source1 ++ (k, v) :: source2))
  = Some (merged_value v (obj_get k o)).
Proof.
  intros Hk1 Hk2. destruct v as [| |n|s]; [|by rewrite merge_get..].
  rewrite merge_app, merge_cons, merge_get_other by done.
  by rewrite assignMergeValue_get_undefined, merge_get_other.
Qed.

Section Endpoint.

Context `{Collaborators}.

(** X21.  What line 209 does to an endpoint of a service that was
    scanned: [cluster], [fragment], [service] and [type] are those of
    lines 158 to 166, whatever the probe printed; the address of the scan
    and the hostname of the service replace [ip] and [rel] when they are
    defined, and leave what the probe printed when they are not; every
    other key of the endpoint is kept.  The endpoints of a service that
    was not scanned are passed on as they are. *)
Theorem endpoint_live_facts (app : App) (serviceConfig : Service)
    (data : jsval) (endpoint : obj) :
  let merged := lodash.merge endpoint (openMerge app serviceConfig data) in
  obj_get "cluster" merged = Some (JStr "bespin")
  ∧ obj_get "fragment" merged = Some JNull
  ∧ obj_get "service" merged = Some (JStr (svc_name serviceConfig))
  ∧ obj_get "type" merged
    = Some (JStr (join ":" [svc_type serviceConfig;
                            svc_version serviceConfig]))
  ∧ obj_get "ip" merged
    = Some (merged_value (getIPAddress data (app_project app +:+ "_default"))
              (obj_get "ip" endpoint))
  ∧ obj_get "rel" merged
    = Some (merged_value (opt_prim (svc_hostname serviceConfig))
              (obj_get "rel" endpoint))
  ∧ (svc_hostname serviceConfig = None →
     obj_get "rel" merged = Some (default JUndefined (obj_get "rel" endpoint)))
  ∧ (∀ k, k ∉ ["cluster"; "fragment"; "hostname"; "ip"; "rel"; "service";
               "type"] →
          obj_get k merged = obj_get k endpoint)
  ∧ (∀ stdout, svc_openMerge serviceConfig = None →
               collected_of serviceConfig stdout
               = (λ parsedData, (svc_name serviceConfig, parsedData))
                   <$> parseOpenData stdout).
Proof.
  intros merged. subst merged. unfold openMerge.
  set (ip := getIPAddress data (app_project app +:+ "_default")).
  split_and!.
  - apply (merge_get_once "cluster" (PStr "bespin") endpoint []);
      cbn; rewrite ?elem_of_cons, ?elem_of_nil; [tauto|].
    intros [?|[?|[?|[?|[?|[?|[]]]]]]]; discriminate.
  - apply (merge_get_once "fragment" PNull endpoint
             [("cluster", PStr "bespin")]);
      cbn; rewrite ?elem_of_cons, ?elem_of_nil.
    + intros [?|[]]; discriminate.
    + intros [?|[?|[?|[?|[?|[]]]]]]; discriminate.
  - apply (merge_get_once "service" (PStr _) endpoint
             [("cluster", PStr "bespin"); ("fragment", PNull);
              ("hostname", PStr _); ("ip", ip);
              ("rel", opt_prim (svc_hostname serviceConfig))]);
      cbn; rewrite ?elem_of_cons, ?elem_of_nil.
    + intros [?|[?|[?|[?|[?|[]]]]]]; discriminate.
    + intros [?|[]]; discriminate.
  - apply (merge_get_once "type" (PStr _) endpoint
             [("cluster", PStr "bespin"); ("fragment", PNull);
              ("hostname", PStr _); ("ip", ip);
              ("rel", opt_prim (svc_hostname serviceConfig));
              ("service", PStr _)]);
      cbn; rewrite ?elem_of_cons, ?elem_of_nil; [|tauto].
    intros [?|[?|[?|[?|[?|[?|[]]]]]]]; discriminate.
  - apply (merge_get_once "ip" ip endpoint
             [("cluster", PStr "bespin"); ("fragment", PNull);
              ("hostname", PStr _)]);
      cbn; rewrite ?elem_of_cons, ?elem_of_nil.
    + intros [?|[?|[?|[]]]]; discriminate.
    + intros [?|[?|[?|[]]]]; discriminate.
  - apply (merge_get_once "rel" (opt_prim (svc_hostname serviceConfig))
             endpoint
             [("cluster", PStr "bespin"); ("fragment", PNull);
              ("hostname", PStr _); ("ip", ip)]);
      cbn; rewrite ?elem_of_cons, ?elem_of_nil.
    + intros [?|[?|[?|[?|[]]]]]; discriminate.
    + intros [?|[?|[]]]; discriminate.
  - intros Hnone.
    transitivity
      (Some (merged_value (opt_prim (svc_hostname serviceConfig))
               (obj_get "rel" endpoint))); [|by rewrite Hnone].
    apply (merge_get_once "rel" (opt_prim (svc_hostname serviceConfig))
             endpoint
             [("cluster", PStr "bespin"); ("fragment", PNull);
              ("hostname", PStr _); ("ip", ip)]);
      cbn; rewrite ?elem_of_cons, ?elem_of_nil.
    + intros [?|[?|[?|[?|[]]]]]; discriminate.
    + intros [?|[?|[]]]; discriminate.
  - intros k Hk. apply merge_get_other. exact Hk.
  - intros stdout Hnone. unfold collected_of. rewrite Hnone.
    destruct (parseOpenData stdout) as [parsedData|]; [|done]. simpl.
    do 2 f_equal. induction parsedData as [|e l IH]; [done|].
    simpl. by rewrite IH.
Qed.

End Endpoint.
(** ** From the scans to the endpoints *)

Section ScannedEndpoints.

Context `{Collaborators}.

(** X22.  The scans and the OPEN handler, one after the other.  With
    unique service names, once the [post-start] handler of priority 1 has
    scanned the services, every endpoint that a probe of the OPEN handler
    collects from a service whose scan gave data is an endpoint the probe
    printed, merged with the live facts of that scan; and the endpoints
    are filed under the name of the service. *)
Theorem scanned_endpoints_carry_live_facts (w : World)
    (services appservers : list nat) (s : OpenState) (i service : nat)
    (svc : Service) (scan : jsval) (result : string * list obj)
    (endpoint : obj) :
  (∀ service, service ∈ services →
              is_Some (app_services (w_app w) !! service)) →
  NoDup (svc_name <$> app_services (w_app w)) →
  services !! i = Some service →
  app_services (w_app w) !! service = Some svc →
  engine_scan (containerId (w_app w) svc) = Some scan →
  reachable services appservers (postStartScan services w).1 s →
  st_probes s !! i = Some (Settled (Some result)) →
  endpoint ∈ result.2 →
  result.1 = svc_name svc
  ∧ ∃ k data parsedData original,
      engine_run (serviceRun (w_app w) svc) k = Some data
      ∧ parseOpenData data = Some parsedData
      ∧ original ∈ parsedData
      ∧ endpoint = lodash.merge original (openMerge (w_app w) svc scan).
Proof.
  intros Hvalid Hnodup Hservice Hsvc Hscan Hreach Hprobe Hin.
  destruct (postStartScan_spec services w Hvalid)
    as (l' & r & Hrun & _ & _ & Hlookup).
  rewrite Hrun in Hreach. simpl in Hreach.
  set (w0 := with_trace _ _) in Hreach.
  assert (Hsvc0 : app_services (w_app w0) !! service
                  = Some (set_openMerge (openMerge (w_app w) svc scan) svc)).
  { simpl. rewrite (Hlookup Hnodup service), Hsvc. simpl.
    rewrite decide_True by by eapply list_elem_of_lookup_2.
    unfold scan_result. by rewrite Hscan. }
  destruct (proj2 (reachable_probes services appservers w0 s Hreach) i _
              service _ Hprobe Hservice Hsvc0)
    as (k & data & _ & _ & Hdata & Hresult).
  unfold collected_of in Hresult.
  destruct (parseOpenData data) as [parsedData|] eqn:Hparsed; [|done].
  injection Hresult as ->. simpl in Hin |- *. split; [done|].
  apply list_elem_of_fmap in Hin as (original & -> & Horiginal).
  by exists k, data, parsedData, original.
Qed.

End ScannedEndpoints.

Lemma scanned_endpoints_carry_live_facts_witness :
  NoDup (svc_name <$> app_services (w_app Example.fresh))
  ∧ @reachable Example.env [0] [1]
      (@postStartScan Example.env [0] Example.fresh).1 Example.opened
  ∧ st_probes Example.opened !! 0
    = Some (Settled (Some ("db", [Example.endpoint])))
  ∧ ∃ k data parsedData original,
      @engine_run Example.env (serviceRun (w_app Example.fresh) Example.db) k
        = Some data
      ∧ @parseOpenData Example.env data = Some parsedData
      ∧ original ∈ parsedData
      ∧ Example.endpoint
        = lodash.merge original
            (@openMerge Example.env (w_app Example.fresh) Example.db
               (JObj [("myapp_default", JStr "10.0.0.5")])).
Proof.
  assert (Hnodup : NoDup (svc_name <$> app_services (w_app Example.fresh))).
  { apply (NoDup_cons_2 "db" ["web"]).
    - intros Hin%list_elem_of_singleton. discriminate Hin.
    - apply (NoDup_singleton "web"). }
  assert (Hprobe : st_probes Example.opened !! 0
                   = Some (Settled (Some ("db", [Example.endpoint]))))
    by by vm_compute.
  split; [exact Hnodup | split; [exact opened_reachable|]].
  split; [exact Hprobe|].
  refine (proj2 (@scanned_endpoints_carry_live_facts Example.env Example.fresh
                   [0] [1] Example.opened 0 0 Example.db
                   (JObj [("myapp_default", JStr "10.0.0.5")])
                   ("db", [Example.endpoint]) Example.endpoint
                   example_valid_references Hnodup eq_refl eq_refl eq_refl
                   opened_reachable Hprobe _)).
  apply list_elem_of_here.
Defined.

(** ** The [post-init] handlers *)

(** X23.  Nothing runs at [post-init].  The three handlers only register
    what is to happen later: the dump of the run config at [pre-start]
    with priority 1, the scans at [post-start] with priority 1 and the OPEN
    handler at [post-start] with priority 8, in this order and behind the
    handlers there are.  The scans and the probes are registered for the
    same services, the services of [app.config.services] that are not
    applications; the trace only gets log lines and registrations, and
    the cache, the files, the directories and the services are as they
    were. *)
Theorem postInit_only_registers (w : World) :
  let services := utils.getNonApplicationServices (app_services (w_app w)) in
  let appservers := utils.getApplicationServices (app_services (w_app w)) in
  (postInit w).2 = Ok tt
  ∧ app_events (w_app (postInit w).1) =
      app_events (w_app w)
        ++ [ ("pre-start", Some 1, HPreStartRunConfig);
             ("post-start", Some 1, HPostStartScan services);
             ("post-start", Some 8, HPostStartOpen services appservers) ]
  ∧ app_services (w_app (postInit w).1) = app_services (w_app w)
  ∧ w_cache (postInit w).1 = w_cache w
  ∧ w_files (postInit w).1 = w_files w
  ∧ w_dirs (postInit w).1 = w_dirs w
  ∧ ∃ t, w_trace (postInit w).1 = w_trace w ++ t
         ∧ Forall (λ e, registers_or_logs e = true) t.
Proof.
  intros services appservers. subst services appservers.
  destruct w as [[i nm rt pj cmp rc ci sv ucr dm pl cfp ps ev wn] c d f n t0].
  unfold postInit, postInitRunConfig, postInitScan, postInitOpen.
  run_world. rewrite <- !app_assoc. split_and!; try reflexivity.
  eexists. split; [reflexivity|]. by repeat constructor.
Qed.
